(** * multiThreadedCompressor: a shallow embedding

    The repository holds two programs.  [multithreaded_compressor.cpp] reads
    a file in chunks of [CHUNK_SIZE] bytes, compresses every chunk on a
    thread pool, sorts the compressed chunks by id and writes them as
    length-prefixed frames.  [multithreaded_decompressor.cpp] reads the
    frames back one after the other and inflates each of them.

    Modelling choices, all of them local to this file:
    - a file is the list of its bytes; an [ifstream] is the unread part of
      the file together with [gcount] and the [eofbit]/[failbit] flags;
    - zlib is an interface ([Zlib]): its [compress] and [uncompress] are
      parameters of the model, its [compressBound] is the library's formula;
    - a C++ exception is a value of [except];
    - the thread pool is a step relation on [World]: every step is one
      critical section of the main thread or of a worker, so an execution
      is an interleaving of those steps;
    - memory is not bounded: no allocation fails, and the sizes that the
      programs keep in [size_t] do not wrap. *)

From Stdlib Require Import ZArith Lia Strings.Byte.
From stdpp Require Import base tactics option list relations sorting.

Local Open Scope Z_scope.

(** ** Bytes and the 32-bit length field *)

Definition Z_of_byte (b : byte) : Z := Z.of_N (Byte.to_N b).

Definition byte_of_Z (n : Z) : byte :=
  default x00 (Byte.of_N (Z.to_N (n mod 256))).

(** [uint32_t size = v.size()]: the conversion keeps the low 32 bits. *)
Definition uint32_of_size (n : nat) : Z := Z.of_nat n mod 2 ^ 32.

(** The object representation of a [uint32_t], as [out.write] and
    [in.read] see it through [reinterpret_cast<char*>]: four bytes, least
    significant first, as on x86-64 and AArch64.  The two programs are
    taken to run on hosts of the same byte order. *)
Definition uint32_bytes (n : Z) : list byte :=
  [byte_of_Z n; byte_of_Z (Z.shiftr n 8);
   byte_of_Z (Z.shiftr n 16); byte_of_Z (Z.shiftr n 24)].

Definition uint32_value (bs : list byte) : Z :=
  match bs with
  | [b0; b1; b2; b3] =>
      Z.lor (Z_of_byte b0)
        (Z.lor (Z.shiftl (Z_of_byte b1) 8)
           (Z.lor (Z.shiftl (Z_of_byte b2) 16) (Z.shiftl (Z_of_byte b3) 24)))
  | _ => 0
  end.

(** ** std::vector<unsigned char> *)

(** [std::vector<unsigned char> v(n)]: [n] zero bytes. *)
Definition vector_of_size (n : nat) : list byte := replicate n x00.

(** [v.resize(n)]: truncate, or pad with zero bytes. *)
Definition vector_resize (n : nat) (v : list byte) : list byte :=
  take n v ++ replicate (n - length v) x00.

(** Writing [src] at the start of the buffer [dst]. *)
Definition overwrite (dst src : list byte) : list byte :=
  src ++ drop (length src) dst.

(** ** std::ifstream over a file *)

Record ifstream := Ifstream {
  unread : list byte;
  gcount : nat;
  eofbit : bool;
  failbit : bool
}.

Definition ifstream_open (file : list byte) : ifstream :=
  {| unread := file; gcount := 0; eofbit := false; failbit := false |}.

Definition good (s : ifstream) : bool := negb (eofbit s) && negb (failbit s).

(** [in.eof()] *)
Definition eof (s : ifstream) : bool := eofbit s.

(** [static_cast<bool>(in)], that is [!in.fail()] *)
Definition stream_ok (s : ifstream) : bool := negb (failbit s).

(** [in.read(buf, n)]: an unformatted input function.  On a stream that is
    not [good] the sentry sets [failbit] and nothing is read.  Otherwise
    [n] bytes are stored; when the file ends first, the bytes that are left
    are stored and [eofbit] and [failbit] are set.  The result is the new
    contents of the buffer and the new stream. *)
Definition istream_read (s : ifstream) (buf : list byte) (n : nat)
  : list byte * ifstream :=
  if good s then
    if decide (n ≤ length (unread s))%nat then
      (overwrite buf (take n (unread s)),
       {| unread := drop n (unread s); gcount := n;
          eofbit := false; failbit := false |})
    else
      (overwrite buf (unread s),
       {| unread := []; gcount := length (unread s);
          eofbit := true; failbit := true |})
  else
    (buf, {| unread := unread s; gcount := 0;
             eofbit := eofbit s; failbit := true |}).

(** [in.peek()]: [None] stands for [EOF].  Peeking at the end of the file
    sets [eofbit]. *)
Definition istream_peek (s : ifstream) : option byte * ifstream :=
  if good s then
    match unread s with
    | [] => (None, {| unread := []; gcount := 0;
                      eofbit := true; failbit := failbit s |})
    | b :: _ => (Some b, {| unread := unread s; gcount := 0;
                            eofbit := eofbit s; failbit := failbit s |})
    end
  else
    (None, {| unread := unread s; gcount := 0;
              eofbit := eofbit s; failbit := true |}).

(** A stream in good state with [l] left to read, and a stream on which
    a read has hit the end of the file. *)
Definition fresh_stream (l : list byte) (g : nat) : ifstream :=
  {| unread := l; gcount := g; eofbit := false; failbit := false |}.

Definition ended_stream (g : nat) : ifstream :=
  {| unread := []; gcount := g; eofbit := true; failbit := true |}.

(** ** Exceptions *)

Inductive runtime_error :=
| Compression_failed
| Decompression_failed (zlib_error : Z).

Inductive except (A : Type) :=
| Return (a : A)
| Throw (e : runtime_error).
Arguments Return {A} a.
Arguments Throw {A} e.

(** ** zlib *)

Inductive zresult :=
| Z_OK (out : list byte)
| Z_ERR (code : Z).

Definition Z_BUF_ERROR : Z := -5.
Definition Z_DATA_ERROR : Z := -3.

(** [compress z src destLen] stands for
    [compress(dest, &destLen, src, srcLen)] and [uncompress z src destLen]
    for [uncompress(dest, &destLen, src, srcLen)]: [Z_OK out] says that the
    call returned [Z_OK], stored [out] at the start of [dest] and set
    [destLen] to the length of [out]. *)
Record Zlib := {
  compress : list byte → Z → zresult;
  uncompress : list byte → Z → zresult
}.

(** [compressBound] of zlib (its [compress.c], versions 1.2 and 1.3),
    with the wrap-around of a 64-bit [uLong]. *)
Definition compressBound (sourceLen : Z) : Z :=
  (sourceLen + Z.shiftr sourceLen 12 + Z.shiftr sourceLen 14
   + Z.shiftr sourceLen 25 + 13) mod 2 ^ 64.

Definition CHUNK_SIZE : nat := Z.to_nat (1024 * 1024).

(** [compressData] of the compressor. *)
Definition compressData (z : Zlib) (input : list byte) : except (list byte) :=
  match input with
  | [] => Return []
  | _ =>
      let compressedSize := compressBound (Z.of_nat (length input)) in
      let output := vector_of_size (Z.to_nat compressedSize) in
      match compress z input compressedSize with
      | Z_OK out =>
          Return (vector_resize (length out) (overwrite output out))
      | Z_ERR _ => Throw Compression_failed
      end
  end.

(** [decompressData] of the decompressor. *)
Definition decompressData (z : Zlib) (input : list byte) : except (list byte) :=
  match input with
  | [] => Return []
  | _ =>
      let output := vector_of_size CHUNK_SIZE in
      match uncompress z input (Z.of_nat (length output)) with
      | Z_OK out =>
          Return (vector_resize (length out) (overwrite output out))
      | Z_ERR result => Throw (Decompression_failed result)
      end
  end.

(** ** The compressor: reading the chunks *)

Record Chunk := { id : nat; data : list byte }.

Record CompressedChunk := { cc_id : nat; cc_data : list byte }.

(** The loop [while (in.read(buffer.data(), CHUNK_SIZE)) chunks.push_back(..)]
    for a chunk size [size].  The result is the state in which the loop
    is left; [None] says that [fuel] iterations did not leave it. *)
Fixpoint read_loop (fuel size : nat) (ins : ifstream) (buffer : list byte)
    (id_counter : nat) (chunks : list Chunk)
  : option (ifstream * list byte * nat * list Chunk) :=
  match fuel with
  | O => None
  | S fuel =>
      let '(buffer, ins) := istream_read ins buffer size in
      if stream_ok ins then
        read_loop fuel size ins buffer (S id_counter)
          (chunks ++ [{| id := id_counter; data := buffer |}])
      else Some (ins, buffer, id_counter, chunks)
  end.

(** Phase 1 of the compressor's [main], for a chunk size [size]. *)
Definition read_chunks (size : nat) (in_file : list byte) : option (list Chunk) :=
  match read_loop (S (length in_file)) size (ifstream_open in_file)
          (vector_of_size size) 0 [] with
  | None => None
  | Some (ins, buffer, id_counter, chunks) =>
      if decide (0 < gcount ins)%nat then
        Some (chunks ++ [{| id := id_counter;
                            data := vector_resize (gcount ins) buffer |}])
      else Some chunks
  end.

(** ** The thread pool *)

Section thread_pool.
Context {Task St : Type}.

(** [call task s]: what [task()] does to the state [s] that the tasks
    share, and the exception it ends with, if any. *)
Variable call : Task → St → St * option runtime_error.

(** A worker thread is blocked in [condition.wait], or is between
    [tasks.pop()] and the end of [task()], or has returned from
    [worker_thread]. *)
Inductive worker :=
| Waiting
| Running (task : Task)
| Finished.

Record ThreadPool := {
  workers : list worker;
  tasks : list Task;
  stop : bool
}.

Definition ThreadPool_new (n : nat) : ThreadPool :=
  {| workers := replicate n Waiting; tasks := []; stop := false |}.

Definition enqueue (task : Task) (p : ThreadPool) : ThreadPool :=
  if stop p then p
  else {| workers := workers p; tasks := tasks p ++ [task]; stop := stop p |}.

(** The main thread: it still has tasks to enqueue, or it is in the
    [join] loop of [shutdown] at worker [k], or [shutdown] has returned. *)
Inductive main_thread :=
| Enqueueing (todo : list Task)
| Joining (k : nat)
| After_shutdown.

(** [completed] is a history variable: the tasks whose call has ended,
    oldest first.  [log] holds the exceptions caught by the workers. *)
Record World := {
  pool : ThreadPool;
  main : main_thread;
  shared : St;
  log : list runtime_error;
  completed : list Task
}.

Definition initial (n : nat) (todo : list Task) (s : St) : World :=
  {| pool := ThreadPool_new n; main := Enqueueing todo; shared := s;
     log := []; completed := [] |}.

Definition with_main (m : main_thread) (w : World) : World :=
  {| pool := pool w; main := m; shared := shared w;
     log := log w; completed := completed w |}.

Definition with_pool (p : ThreadPool) (w : World) : World :=
  {| pool := p; main := main w; shared := shared w;
     log := log w; completed := completed w |}.

Definition with_worker (i : nat) (x : worker) (p : ThreadPool) : ThreadPool :=
  {| workers := <[i := x]> (workers p); tasks := tasks p; stop := stop p |}.

Definition with_tasks (q : list Task) (p : ThreadPool) : ThreadPool :=
  {| workers := workers p; tasks := q; stop := stop p |}.

Definition with_stop (p : ThreadPool) : ThreadPool :=
  {| workers := workers p; tasks := tasks p; stop := true |}.

(** The end of [task()] in [worker_thread]: the exception, if any, is
    caught and logged. *)
Definition after_call (task : Task) (w : World) : World :=
  {| pool := pool w; main := main w;
     shared := (call task (shared w)).1;
     log := log w ++ option_list (call task (shared w)).2;
     completed := completed w ++ [task] |}.

(** The steps of a run.  The main thread:
    - [step_enqueue]: one [pool.enqueue(task)] of the [for] loop;
    - [step_shutdown]: the first part of [shutdown()], which sets [stop]
      and wakes the workers;
    - [step_shutdown_again]: [if (stop) return;] at the start of
      [shutdown()];
    - [step_join]: [worker.join()] returns, when that thread has ended;
    - [step_joined]: the end of the [join] loop.
    A worker, in [worker_thread]:
    - [step_pop]: [condition.wait] returns with a task in the queue, and
      the worker takes it: [tasks.front()], [tasks.pop()];
    - [step_call]: [task()] ends, with or without an exception.  A task
      changes the shared state in one critical section only, so its
      effect is one step;
    - [step_return]: [if (stop && tasks.empty()) return;]. *)
Inductive step : World → World → Prop :=
| step_enqueue w task todo :
    main w = Enqueueing (task :: todo) →
    step w (with_main (Enqueueing todo) (with_pool (enqueue task (pool w)) w))
| step_shutdown w :
    main w = Enqueueing [] → stop (pool w) = false →
    step w (with_main (Joining 0) (with_pool (with_stop (pool w)) w))
| step_shutdown_again w :
    main w = Enqueueing [] → stop (pool w) = true →
    step w (with_main After_shutdown w)
| step_join w k :
    main w = Joining k → workers (pool w) !! k = Some Finished →
    step w (with_main (Joining (S k)) w)
| step_joined w :
    main w = Joining (length (workers (pool w))) →
    step w (with_main After_shutdown w)
| step_pop w i task q :
    workers (pool w) !! i = Some Waiting → tasks (pool w) = task :: q →
    step w (with_pool (with_worker i (Running task) (with_tasks q (pool w))) w)
| step_call w i task :
    workers (pool w) !! i = Some (Running task) →
    step w (with_pool (with_worker i Waiting (pool w)) (after_call task w))
| step_return w i :
    workers (pool w) !! i = Some Waiting →
    stop (pool w) = true → tasks (pool w) = [] →
    step w (with_pool (with_worker i Finished (pool w)) w).

(** The tasks that some worker is running. *)
Definition running (ws : list worker) : list Task :=
  omap (λ x, match x with Running task => Some task | _ => None end) ws.

(** The tasks that the main thread has not handed over yet. *)
Definition pending (m : main_thread) : list Task :=
  match m with Enqueueing todo => todo | _ => [] end.

(** The same steps as a function: [next c w] is the step of the thread
    [c] in [w], if that thread can take one. *)
Inductive thread :=
| Main
| Worker (i : nat).

Definition next (c : thread) (w : World) : option World :=
  match c with
  | Main =>
      match main w with
      | Enqueueing (task :: todo) =>
          Some (with_main (Enqueueing todo)
                  (with_pool (enqueue task (pool w)) w))
      | Enqueueing [] =>
          if stop (pool w) then Some (with_main After_shutdown w)
          else Some (with_main (Joining 0) (with_pool (with_stop (pool w)) w))
      | Joining k =>
          if decide (k = length (workers (pool w))) then
            Some (with_main After_shutdown w)
          else
            match workers (pool w) !! k with
            | Some Finished => Some (with_main (Joining (S k)) w)
            | _ => None
            end
      | After_shutdown => None
      end
  | Worker i =>
      match workers (pool w) !! i with
      | Some Waiting =>
          match tasks (pool w) with
          | task :: q =>
              Some (with_pool
                      (with_worker i (Running task) (with_tasks q (pool w))) w)
          | [] =>
              if stop (pool w) then
                Some (with_pool (with_worker i Finished (pool w)) w)
              else None
          end
      | Some (Running task) =>
          Some (with_pool (with_worker i Waiting (pool w)) (after_call task w))
      | _ => None
      end
  end.

(** The run that a schedule picks. *)
Definition run_schedule (cs : list thread) (w : World) : option World :=
  foldl (λ ow c, ow ≫= next c) (Some w) cs.

(** The effect of a sequence of calls, in the order in which they end,
    on the shared state and on the log. *)
Definition call_logged (sl : St * list runtime_error) (task : Task)
  : St * list runtime_error :=
  ((call task sl.1).1, sl.2 ++ option_list (call task sl.1).2).

Definition calls (ts : list Task) (sl : St * list runtime_error)
  : St * list runtime_error :=
  foldl call_logged sl ts.

(** The workers that the [join] loop has passed. *)
Definition joined (n : nat) (m : main_thread) : nat :=
  match m with
  | Enqueueing _ => 0
  | Joining k => k
  | After_shutdown => n
  end.

(** What holds in every state of a run of [n] workers on the tasks
    [todo], from the shared state [s]. *)
Record pool_inv (n : nat) (todo : list Task) (s : St) (w : World) : Prop := {
  inv_workers : length (workers (pool w)) = n;
  inv_tasks :
    todo ≡ₚ pending (main w) ++ tasks (pool w)
            ++ running (workers (pool w)) ++ completed w;
  inv_enqueueing :
    ∀ rest, main w = Enqueueing rest → stop (pool w) = false;
  inv_stopped :
    stop (pool w) = false → ∃ rest, main w = Enqueueing rest;
  inv_finished :
    ∀ i, workers (pool w) !! i = Some Finished →
         stop (pool w) = true ∧ tasks (pool w) = [];
  inv_joined :
    ∀ i, (i < joined n (main w))%nat →
         workers (pool w) !! i = Some Finished;
  inv_shared : (shared w, log w) = calls (completed w) (s, [])
}.

(** A measure that every step lowers. *)
Definition worker_weight (x : worker) : nat :=
  match x with
  | Running _ => 2
  | Waiting => 1
  | Finished => 0
  end.

Definition main_weight (n : nat) (m : main_thread) : nat :=
  match m with
  | Enqueueing todo => 4 * length todo + n + 3
  | Joining k => S (n - k)
  | After_shutdown => 0
  end.

Definition weight (w : World) : nat :=
  main_weight (length (workers (pool w))) (main w)
  + 3 * length (tasks (pool w))
  + sum_list_with worker_weight (workers (pool w)).
End thread_pool.

Arguments worker : clear implicits.
Arguments ThreadPool : clear implicits.
Arguments main_thread : clear implicits.
Arguments World : clear implicits.

(** ** The compressor: compressing, sorting and writing *)

(** The task that [main] enqueues for [chunk]; [compressed_chunks] is the
    vector behind [results_mutex]. *)
Definition compress_task (z : Zlib) (chunk : Chunk)
    (compressed_chunks : list CompressedChunk)
  : list CompressedChunk * option runtime_error :=
  match compressData z (data chunk) with
  | Return compressed_data =>
      (compressed_chunks ++ [{| cc_id := id chunk; cc_data := compressed_data |}],
       None)
  | Throw e => (compressed_chunks, Some e)
  end.

(** The comparison given to [std::sort]. *)
Definition id_less (a b : CompressedChunk) : bool :=
  bool_decide (cc_id a < cc_id b)%nat.

Fixpoint sorted_insert (c : CompressedChunk) (l : list CompressedChunk)
  : list CompressedChunk :=
  match l with
  | [] => [c]
  | x :: l' => if id_less c x then c :: l else x :: sorted_insert c l'
  end.

(** [std::sort] with [id_less].  The standard fixes its result up to the
    order of elements with equal ids; this is one such result, and the
    only one when the ids are pairwise distinct, as they are in every run
    ([sort_unique_weak] and [any_sort_same_container] below). *)
Definition std_sort (l : list CompressedChunk) : list CompressedChunk :=
  foldr sorted_insert [] l.

(** [by_id a b]: [a] comes strictly before [b] in the order of the ids. *)
Definition by_id (a b : CompressedChunk) : Prop := (cc_id a < cc_id b)%nat.

(** One iteration of the writing loop. *)
Definition write_frame (out : list byte) (compressed_chunk : CompressedChunk)
  : list byte :=
  let size := uint32_of_size (length (cc_data compressed_chunk)) in
  out ++ uint32_bytes size ++ take (Z.to_nat size) (cc_data compressed_chunk).

Definition write_frames (cs : list CompressedChunk) : list byte :=
  foldl write_frame [] cs.

(** A frame of the container: the length of [payload] in four bytes, then
    [payload]. *)
Definition frame (payload : list byte) : list byte :=
  uint32_bytes (Z.of_nat (length payload)) ++ payload.

Definition frames (payloads : list (list byte)) : list byte :=
  concat (frame <$> payloads).

Inductive diagnostic :=
| Exception_in_worker (e : runtime_error)
| Failed_to_read_chunk_size
| Failed_to_read_chunk_data
| Error_during_decompression (e : runtime_error).

(** What a run leaves behind: the exit code, the output file and the
    lines on [std::cerr]. *)
Record run := {
  exit_code : Z;
  out_file : list byte;
  cerr : list diagnostic
}.

(** What the task of [chunk] adds to [compressed_chunks], and what it
    throws. *)
Definition compressed (z : Zlib) (chunk : Chunk) : option CompressedChunk :=
  match compressData z (data chunk) with
  | Return compressed_data =>
      Some {| cc_id := id chunk; cc_data := compressed_data |}
  | Throw _ => None
  end.

Definition failure (z : Zlib) (chunk : Chunk) : option runtime_error :=
  match compressData z (data chunk) with
  | Return _ => None
  | Throw e => Some e
  end.

(** What [main] leaves behind when the pool has ended in the world [w]:
    phase 3 and [return 0]. *)
Definition run_of (w : World Chunk (list CompressedChunk)) : run :=
  {| exit_code := 0;
     out_file := write_frames (std_sort (shared w));
     cerr := Exception_in_worker <$> log w |}.

(** The compressor's [main] on the bytes of the input file, for a chunk
    size [size], with [hardware_concurrency] the value of
    [std::thread::hardware_concurrency()].  The last index is the pool in
    the state in which [main] leaves it, or [None] when [main] returns
    before it constructs the pool. *)
Inductive compress_with (size : nat) (z : Zlib) (hardware_concurrency : nat)
    (in_file : list byte)
  : run → option (World Chunk (list CompressedChunk)) → Prop :=
| compress_empty :
    read_chunks size in_file = Some [] →
    compress_with size z hardware_concurrency in_file
      {| exit_code := 0; out_file := []; cerr := [] |} None
| compress_chunks chunks w :
    read_chunks size in_file = Some chunks → chunks ≠ [] →
    rtc (step (compress_task z)) (initial hardware_concurrency chunks []) w →
    main w = After_shutdown →
    compress_with size z hardware_concurrency in_file (run_of w) (Some w).

Definition compress_main : Zlib → nat → list byte →
    run → option (World Chunk (list CompressedChunk)) → Prop :=
  compress_with CHUNK_SIZE.

(** The run of [main] that the schedule [cs] picks, as a function: [None]
    when the reading loop does not end within its fuel or [cs] does not
    lead to the end of [shutdown]. *)
Definition compress_scheduled (size : nat) (z : Zlib)
    (hardware_concurrency : nat) (cs : list thread) (in_file : list byte)
  : option run :=
  match read_chunks size in_file with
  | None => None
  | Some [] => Some {| exit_code := 0; out_file := []; cerr := [] |}
  | Some chunks =>
      match run_schedule (compress_task z) cs
              (initial hardware_concurrency chunks []) with
      | Some w =>
          match main w with
          | After_shutdown => Some (run_of w)
          | _ => None
          end
      | None => None
      end
  end.

(** ** The decompressor *)

(** The loop [while (in.peek() != EOF)] of the decompressor's [main] and
    the code after it; [out] is what has been written to the output file.
    [None] says that [fuel] iterations did not end the run. *)
Fixpoint decompress_loop (z : Zlib) (fuel : nat) (ins : ifstream)
    (out : list byte) : option run :=
  match fuel with
  | O => None
  | S fuel =>
      let '(c, ins) := istream_peek ins in
      match c with
      | None => Some {| exit_code := 0; out_file := out; cerr := [] |}
      | Some _ =>
          let '(size_bytes, ins) := istream_read ins (vector_of_size 4) 4 in
          if decide (gcount ins ≠ 4%nat) then
            if eof ins then
              Some {| exit_code := 0; out_file := out; cerr := [] |}
            else
              Some {| exit_code := 1; out_file := out;
                      cerr := [Failed_to_read_chunk_size] |}
          else
            let compressedChunkSize := uint32_value size_bytes in
            let '(compressedData, ins) :=
              istream_read ins
                (vector_of_size (Z.to_nat compressedChunkSize))
                (Z.to_nat compressedChunkSize) in
            if decide (Z.of_nat (gcount ins) ≠ compressedChunkSize) then
              Some {| exit_code := 1; out_file := out;
                      cerr := [Failed_to_read_chunk_data] |}
            else
              match decompressData z compressedData with
              | Return decompressedData =>
                  decompress_loop z fuel ins (out ++ decompressedData)
              | Throw e =>
                  Some {| exit_code := 1; out_file := out;
                          cerr := [Error_during_decompression e] |}
              end
      end
  end.

Definition decompress_main (z : Zlib) (in_file : list byte) : option run :=
  decompress_loop z (S (length in_file)) (ifstream_open in_file) [].

Definition done_run (code : Z) (out : list byte) (ds : list diagnostic) : run :=
  {| exit_code := code; out_file := out; cerr := ds |}.

(** ** Containers, as the decompressor may meet them *)

(** A frame that the codec accepts, with what it makes of it. *)
Definition decodes (z : Zlib) (payload d : list byte) : Prop :=
  Z.of_nat (length payload) < 2 ^ 32 ∧ decompressData z payload = Return d.

(** [corrupt_frame z bytes d]: [bytes], the file from the start of a frame
    on, begins with a corrupt frame.  Either the file ends before the
    payload is as long as the length field says, or the payload is there
    and the codec rejects it.  [d] is the diagnostic that belongs to it. *)
Inductive corrupt_frame (z : Zlib) : list byte → diagnostic → Prop :=
| payload_truncated (n : Z) (payload : list byte) :
    0 ≤ n < 2 ^ 32 → Z.of_nat (length payload) < n →
    corrupt_frame z (uint32_bytes n ++ payload) Failed_to_read_chunk_data
| payload_rejected (payload rest : list byte) (e : runtime_error) :
    Z.of_nat (length payload) < 2 ^ 32 →
    decompressData z payload = Throw e →
    corrupt_frame z (frame payload ++ rest) (Error_during_decompression e).

(** ** What the program relies on in zlib *)

(** [compress] does not write past the buffer it is given: on [Z_OK] the
    output is at most [destLen] bytes long. *)
Definition within_capacity (z : Zlib) : Prop :=
  ∀ (src : list byte) (destLen : Z) (out : list byte),
    compress z src destLen = Z_OK out → Z.of_nat (length out) ≤ destLen.

(** The codec gives back what it was given, for the calls that the two
    programs make: for data [x] of one to [CHUNK_SIZE] bytes, [compress]
    with a buffer of [compressBound] bytes returns a stream, which like
    every zlib stream is not empty, and [uncompress] of that stream with a
    buffer of [CHUNK_SIZE] bytes returns [x]. *)
Definition codec_roundtrip (z : Zlib) : Prop :=
  ∀ x : list byte,
    x ≠ [] → (length x ≤ CHUNK_SIZE)%nat →
    ∃ c, compress z x (compressBound (Z.of_nat (length x))) = Z_OK c
         ∧ c ≠ []
         ∧ uncompress z c (Z.of_nat CHUNK_SIZE) = Z_OK x.

(** ** Two small codecs and two schedules, used to run the model *)

(** A codec that stores: one header byte, then the data. *)
Definition stored_compress (src : list byte) (destLen : Z) : zresult :=
  let out := x78 :: src in
  if decide (Z.of_nat (length out) ≤ destLen) then Z_OK out
  else Z_ERR Z_BUF_ERROR.

Definition stored_uncompress (src : list byte) (destLen : Z) : zresult :=
  match src with
  | x78 :: body =>
      if decide (Z.of_nat (length body) ≤ destLen) then Z_OK body
      else Z_ERR Z_BUF_ERROR
  | _ => Z_ERR Z_DATA_ERROR
  end.

Definition stored : Zlib :=
  {| compress := stored_compress; uncompress := stored_uncompress |}.

(** The same codec, except that its [compress] gives up on data that
    starts with the byte [xff]. *)
Definition picky_compress (src : list byte) (destLen : Z) : zresult :=
  match src with
  | xff :: _ => Z_ERR (-4)
  | _ => stored_compress src destLen
  end.

Definition picky : Zlib :=
  {| compress := picky_compress; uncompress := stored_uncompress |}.

(** A file of five bytes; with a chunk size of 2 it has three chunks. *)
Definition demo_file : list byte := [x01; x02; xff; x03; x04].

Definition demo_chunks : list Chunk :=
  [{| id := 0; data := [x01; x02] |};
   {| id := 1; data := [xff; x03] |};
   {| id := 2; data := [x04] |}].

(** Two workers.  Worker 0 takes chunk 0 and worker 1 takes chunk 1; the
    main thread calls [shutdown] while both are busy; worker 1 ends first,
    takes chunk 2 and ends again; worker 0 ends last. *)
Definition out_of_order : list thread :=
  [Main; Main; Main; Worker 0; Worker 1; Main; Worker 1; Worker 1; Worker 1;
   Worker 0; Worker 1; Worker 0; Main; Main; Main].

(** Two workers, of which worker 0 runs every task, in the order of the
    queue. *)
Definition in_order : list thread :=
  [Main; Main; Main; Worker 0; Worker 0; Worker 0; Worker 0; Worker 0;
   Worker 0; Main; Worker 1; Worker 0; Main; Main; Main].

(** The world in which the schedule [cs] leaves a pool of [n] workers
    that is given [chunks]. *)
Definition world_of (z : Zlib) (n : nat) (chunks : list Chunk)
    (cs : list thread) : World Chunk (list CompressedChunk) :=
  default (initial n chunks [])
    (run_schedule (compress_task z) cs (initial n chunks [])).

Definition demo_world (z : Zlib) (cs : list thread)
  : World Chunk (list CompressedChunk) :=
  world_of z 2 demo_chunks cs.

(** A file of one chunk, and the run of one worker on it. *)
Definition tiny_file : list byte := [x01; x02; x03].

Definition tiny_chunks : list Chunk := [{| id := 0; data := tiny_file |}].

Definition one_worker : list thread :=
  [Main; Worker 0; Main; Worker 0; Worker 0; Main; Main].

(** ** Further notions used in the properties *)

(** [d] written in front of what a run leaves in its output file. *)
Definition prepend_out (d : list byte) (r : run) : run :=
  {| exit_code := exit_code r; out_file := d ++ out_file r; cerr := cerr r |}.

(** A codec that may give up, but does not lie: when [compress] returns
    a stream for data of one to [CHUNK_SIZE] bytes, the stream is not
    empty and [uncompress] with a buffer of [CHUNK_SIZE] bytes returns the
    data. *)
Definition codec_sound (z : Zlib) : Prop :=
  ∀ x c : list byte,
    x ≠ [] → (length x ≤ CHUNK_SIZE)%nat →
    compress z x (compressBound (Z.of_nat (length x))) = Z_OK c →
    c ≠ [] ∧ uncompress z c (Z.of_nat CHUNK_SIZE) = Z_OK x.

(** The chunks whose compression succeeds. *)
Definition survivors (z : Zlib) (chunks : list Chunk) : list Chunk :=
  filter (λ c, is_Some (compressed z c)) chunks.

(** A schedule that stops in the middle of a run: both workers hold a
    task, one task is queued, [shutdown] has set [stop]. *)
Definition mid_run : list thread :=
  [Main; Main; Main; Worker 0; Worker 1; Main].


(** One worker, with the main thread and the worker taking turns. *)
Definition one_by_one : list thread :=
  [Main; Worker 0; Main; Worker 0; Main; Worker 0; Worker 0; Worker 0;
   Worker 0; Main; Worker 0; Main; Main].

(** A file whose only chunk the codec [picky] refuses. *)
Definition refused_file : list byte := [xff; x01].

Definition refused_chunks : list Chunk := [{| id := 0; data := refused_file |}].

(** [uncompress] does not write past the buffer it is given. *)
Definition uncompress_within_capacity (z : Zlib) : Prop :=
  ∀ (src : list byte) (destLen : Z) (out : list byte),
    uncompress z src destLen = Z_OK out → Z.of_nat (length out) ≤ destLen.

(** A pool without workers on the one chunk of [tiny_file]: the main
    thread enqueues, calls [shutdown], and leaves the empty [join]
    loop. *)
Definition main_alone : list thread := [Main; Main; Main].

(** ** The thread pool, with its mutex and its condition variable *)

(** The steps of [step] above are whole critical sections, and a worker
    in [condition.wait] is taken to see the queue and [stop] at once.
    Here [queue_mutex] is a flag that a thread sets and clears, a worker
    that finds nothing to do sleeps, and a sleeping worker stays asleep
    until [notify_one] or [notify_all] reaches it, or until it wakes up
    for no reason, as the standard lets it. *)

Section pool_with_condition.
Context {Task St : Type}.
Variable call : Task → St → St * option runtime_error.

(** Where a worker is in [worker_thread]:
    - [Locking]: at [std::unique_lock lock(queue_mutex)];
    - [Testing]: it holds the mutex and is about to evaluate the predicate
      of [condition.wait];
    - [Asleep]: blocked in [condition.wait], the mutex released;
    - [Woken]: unblocked, about to take the mutex again inside
      [condition.wait];
    - [Calling task]: between the end of the locked block and the end of
      [task()];
    - [Returned]: it has left [worker_thread]. *)
Inductive cv_worker :=
| Locking
| Testing
| Asleep
| Woken
| Calling (task : Task)
| Returned.

(** Where the main thread is:
    - [Before_enqueue todo]: before [pool.enqueue] of the first task of
      [todo], or before [pool.shutdown()] when [todo] is empty;
    - [In_enqueue task todo]: in [enqueue], holding the mutex;
    - [At_notify_one todo]: at [condition.notify_one()];
    - [In_shutdown]: in [shutdown], holding the mutex;
    - [At_notify_all]: at [condition.notify_all()];
    - [At_join k]: in the [join] loop, at worker [k];
    - [Shutdown_done]: [shutdown] has returned. *)
Inductive cv_main_thread :=
| Before_enqueue (todo : list Task)
| In_enqueue (task : Task) (todo : list Task)
| At_notify_one (todo : list Task)
| In_shutdown
| At_notify_all
| At_join (k : nat)
| Shutdown_done.

(** [queue_mutex] is [true] while a thread holds the mutex.  The threads
    that wait on [condition] are the workers that are [Asleep]. *)
Record CvWorld := {
  cv_workers : list cv_worker;
  cv_tasks : list Task;
  cv_stop : bool;
  queue_mutex : bool;
  cv_main : cv_main_thread;
  cv_shared : St;
  cv_log : list runtime_error;
  cv_completed : list Task
}.

Definition cv_initial (n : nat) (todo : list Task) (s : St) : CvWorld :=
  {| cv_workers := replicate n Locking; cv_tasks := []; cv_stop := false;
     queue_mutex := false; cv_main := Before_enqueue todo; cv_shared := s;
     cv_log := []; cv_completed := [] |}.

Definition cv_with_workers (ws : list cv_worker) (w : CvWorld) : CvWorld :=
  {| cv_workers := ws; cv_tasks := cv_tasks w; cv_stop := cv_stop w;
     queue_mutex := queue_mutex w; cv_main := cv_main w;
     cv_shared := cv_shared w; cv_log := cv_log w;
     cv_completed := cv_completed w |}.

Definition cv_with_worker (i : nat) (x : cv_worker) (w : CvWorld) : CvWorld :=
  cv_with_workers (<[i := x]> (cv_workers w)) w.

Definition cv_with_tasks (q : list Task) (w : CvWorld) : CvWorld :=
  {| cv_workers := cv_workers w; cv_tasks := q; cv_stop := cv_stop w;
     queue_mutex := queue_mutex w; cv_main := cv_main w;
     cv_shared := cv_shared w; cv_log := cv_log w;
     cv_completed := cv_completed w |}.

Definition cv_with_stop (w : CvWorld) : CvWorld :=
  {| cv_workers := cv_workers w; cv_tasks := cv_tasks w; cv_stop := true;
     queue_mutex := queue_mutex w; cv_main := cv_main w;
     cv_shared := cv_shared w; cv_log := cv_log w;
     cv_completed := cv_completed w |}.

Definition cv_with_mutex (held : bool) (w : CvWorld) : CvWorld :=
  {| cv_workers := cv_workers w; cv_tasks := cv_tasks w; cv_stop := cv_stop w;
     queue_mutex := held; cv_main := cv_main w;
     cv_shared := cv_shared w; cv_log := cv_log w;
     cv_completed := cv_completed w |}.

Definition cv_with_main (m : cv_main_thread) (w : CvWorld) : CvWorld :=
  {| cv_workers := cv_workers w; cv_tasks := cv_tasks w; cv_stop := cv_stop w;
     queue_mutex := queue_mutex w; cv_main := m;
     cv_shared := cv_shared w; cv_log := cv_log w;
     cv_completed := cv_completed w |}.

(** The end of [task()]: the exception, if any, is caught and logged. *)
Definition cv_after_call (task : Task) (w : CvWorld) : CvWorld :=
  {| cv_workers := cv_workers w; cv_tasks := cv_tasks w; cv_stop := cv_stop w;
     queue_mutex := queue_mutex w; cv_main := cv_main w;
     cv_shared := (call task (cv_shared w)).1;
     cv_log := cv_log w ++ option_list (call task (cv_shared w)).2;
     cv_completed := cv_completed w ++ [task] |}.

Definition asleep (x : cv_worker) : bool :=
  match x with Asleep => true | _ => false end.

(** What [notify_all] does to a worker. *)
Definition wake (x : cv_worker) : cv_worker :=
  match x with Asleep => Woken | _ => x end.

(** A step is one of the code, or a wake-up that no [notify] causes. *)
Inductive step_kind :=
| Of_the_code
| Spurious_wakeup.

(** The steps.  A worker, in [worker_thread]:
    - [cv_lock]: the constructor of [lock] takes the mutex;
    - [cv_relock]: [condition.wait] takes the mutex again after a
      wake-up;
    - [cv_sleep]: the predicate of [condition.wait] is false, the worker
      releases the mutex and blocks, in one step;
    - [cv_pop]: the predicate is true and the queue is not empty, the
      worker takes the first task and leaves the locked block;
    - [cv_return]: the predicate is true, [stop] is set and the queue is
      empty: [return], which releases the mutex;
    - [cv_call]: [task()] ends, with or without an exception;
    - [cv_spurious]: a wake-up without a [notify].
    The main thread, in [enqueue]:
    - [cv_enqueue_lock]: the constructor of [lock] takes the mutex;
    - [cv_enqueue_push]: [tasks.push], and the end of the locked block;
    - [cv_enqueue_stopped]: [if (stop) return;], without a [notify];
    - [cv_notify_one]: [notify_one] unblocks one of the sleeping workers;
    - [cv_notify_none]: [notify_one] when no worker sleeps.
    The main thread, in [shutdown]:
    - [cv_shutdown_again]: [if (stop) return;];
    - [cv_shutdown_lock]: [stop] is not set, and the constructor of
      [lock] takes the mutex;
    - [cv_shutdown_stop]: [stop = true], and the end of the locked block;
    - [cv_notify_all]: [notify_all] unblocks every sleeping worker;
    - [cv_join]: [worker.join()] returns, when that thread has ended;
    - [cv_joined]: the end of the [join] loop. *)
Inductive cv_step : step_kind → CvWorld → CvWorld → Prop :=
| cv_lock w i :
    cv_workers w !! i = Some Locking → queue_mutex w = false →
    cv_step Of_the_code w (cv_with_worker i Testing (cv_with_mutex true w))
| cv_relock w i :
    cv_workers w !! i = Some Woken → queue_mutex w = false →
    cv_step Of_the_code w (cv_with_worker i Testing (cv_with_mutex true w))
| cv_sleep w i :
    cv_workers w !! i = Some Testing →
    cv_stop w = false → cv_tasks w = [] →
    cv_step Of_the_code w (cv_with_worker i Asleep (cv_with_mutex false w))
| cv_pop w i task q :
    cv_workers w !! i = Some Testing → cv_tasks w = task :: q →
    cv_step Of_the_code w
      (cv_with_worker i (Calling task)
         (cv_with_tasks q (cv_with_mutex false w)))
| cv_return w i :
    cv_workers w !! i = Some Testing →
    cv_stop w = true → cv_tasks w = [] →
    cv_step Of_the_code w (cv_with_worker i Returned (cv_with_mutex false w))
| cv_call w i task :
    cv_workers w !! i = Some (Calling task) →
    cv_step Of_the_code w (cv_with_worker i Locking (cv_after_call task w))
| cv_spurious w i :
    cv_workers w !! i = Some Asleep →
    cv_step Spurious_wakeup w (cv_with_worker i Woken w)
| cv_enqueue_lock w task todo :
    cv_main w = Before_enqueue (task :: todo) → queue_mutex w = false →
    cv_step Of_the_code w
      (cv_with_main (In_enqueue task todo) (cv_with_mutex true w))
| cv_enqueue_push w task todo :
    cv_main w = In_enqueue task todo → cv_stop w = false →
    cv_step Of_the_code w
      (cv_with_main (At_notify_one todo)
         (cv_with_tasks (cv_tasks w ++ [task]) (cv_with_mutex false w)))
| cv_enqueue_stopped w task todo :
    cv_main w = In_enqueue task todo → cv_stop w = true →
    cv_step Of_the_code w
      (cv_with_main (Before_enqueue todo) (cv_with_mutex false w))
| cv_notify_one w todo i :
    cv_main w = At_notify_one todo → cv_workers w !! i = Some Asleep →
    cv_step Of_the_code w
      (cv_with_main (Before_enqueue todo) (cv_with_worker i Woken w))
| cv_notify_none w todo :
    cv_main w = At_notify_one todo → existsb asleep (cv_workers w) = false →
    cv_step Of_the_code w (cv_with_main (Before_enqueue todo) w)
| cv_shutdown_again w :
    cv_main w = Before_enqueue [] → cv_stop w = true →
    cv_step Of_the_code w (cv_with_main Shutdown_done w)
| cv_shutdown_lock w :
    cv_main w = Before_enqueue [] → cv_stop w = false →
    queue_mutex w = false →
    cv_step Of_the_code w (cv_with_main In_shutdown (cv_with_mutex true w))
| cv_shutdown_stop w :
    cv_main w = In_shutdown →
    cv_step Of_the_code w
      (cv_with_main At_notify_all (cv_with_mutex false (cv_with_stop w)))
| cv_notify_all w :
    cv_main w = At_notify_all →
    cv_step Of_the_code w
      (cv_with_main (At_join 0) (cv_with_workers (wake <$> cv_workers w) w))
| cv_join w k :
    cv_main w = At_join k → cv_workers w !! k = Some Returned →
    cv_step Of_the_code w (cv_with_main (At_join (S k)) w)
| cv_joined w :
    cv_main w = At_join (length (cv_workers w)) →
    cv_step Of_the_code w (cv_with_main Shutdown_done w).

(** A step of either kind. *)
Definition cv_any (w w' : CvWorld) : Prop := ∃ kind, cv_step kind w w'.

(** A run of [k] steps of the code and [s] spurious wake-ups. *)
Inductive cv_run : nat → nat → CvWorld → CvWorld → Prop :=
| cv_run_end w : cv_run 0 0 w w
| cv_run_code k s w w1 w' :
    cv_step Of_the_code w w1 → cv_run k s w1 w' → cv_run (S k) s w w'
| cv_run_spurious k s w w1 w' :
    cv_step Spurious_wakeup w w1 → cv_run k s w1 w' → cv_run k (S s) w w'.

(** The same steps as a function.  The scheduler names the thread that
    moves; for the main thread it also names the worker that
    [notify_one] unblocks, which matters only when several sleep. *)
Inductive cv_choice :=
| Cv_main (i : nat)
| Cv_worker (i : nat)
| Cv_spurious (i : nat).

Definition kind_of (c : cv_choice) : step_kind :=
  match c with Cv_spurious _ => Spurious_wakeup | _ => Of_the_code end.

Definition cv_next (c : cv_choice) (w : CvWorld) : option CvWorld :=
  match c with
  | Cv_main i =>
      match cv_main w with
      | Before_enqueue (task :: todo) =>
          if queue_mutex w then None
          else Some (cv_with_main (In_enqueue task todo)
                       (cv_with_mutex true w))
      | Before_enqueue [] =>
          if cv_stop w then Some (cv_with_main Shutdown_done w)
          else if queue_mutex w then None
          else Some (cv_with_main In_shutdown (cv_with_mutex true w))
      | In_enqueue task todo =>
          if cv_stop w then
            Some (cv_with_main (Before_enqueue todo) (cv_with_mutex false w))
          else
            Some (cv_with_main (At_notify_one todo)
                    (cv_with_tasks (cv_tasks w ++ [task])
                       (cv_with_mutex false w)))
      | At_notify_one todo =>
          match cv_workers w !! i with
          | Some Asleep =>
              Some (cv_with_main (Before_enqueue todo)
                      (cv_with_worker i Woken w))
          | _ =>
              if existsb asleep (cv_workers w) then None
              else Some (cv_with_main (Before_enqueue todo) w)
          end
      | In_shutdown =>
          Some (cv_with_main At_notify_all
                  (cv_with_mutex false (cv_with_stop w)))
      | At_notify_all =>
          Some (cv_with_main (At_join 0)
                  (cv_with_workers (wake <$> cv_workers w) w))
      | At_join k =>
          if decide (k = length (cv_workers w)) then
            Some (cv_with_main Shutdown_done w)
          else
            match cv_workers w !! k with
            | Some Returned => Some (cv_with_main (At_join (S k)) w)
            | _ => None
            end
      | Shutdown_done => None
      end
  | Cv_worker i =>
      match cv_workers w !! i with
      | Some Locking | Some Woken =>
          if queue_mutex w then None
          else Some (cv_with_worker i Testing (cv_with_mutex true w))
      | Some Testing =>
          match cv_tasks w with
          | task :: q =>
              Some (cv_with_worker i (Calling task)
                      (cv_with_tasks q (cv_with_mutex false w)))
          | [] =>
              if cv_stop w then
                Some (cv_with_worker i Returned (cv_with_mutex false w))
              else
                Some (cv_with_worker i Asleep (cv_with_mutex false w))
          end
      | Some (Calling task) =>
          Some (cv_with_worker i Locking (cv_after_call task w))
      | _ => None
      end
  | Cv_spurious i =>
      match cv_workers w !! i with
      | Some Asleep => Some (cv_with_worker i Woken w)
      | _ => None
      end
  end.

Definition cv_schedule (cs : list cv_choice) (w : CvWorld) : option CvWorld :=
  foldl (λ ow c, ow ≫= cv_next c) (Some w) cs.

Definition spurious (c : cv_choice) : bool :=
  match c with Cv_spurious _ => true | _ => false end.

(** The threads that hold the mutex, counted. *)
Definition holding (x : cv_worker) : nat :=
  match x with Testing => 1 | _ => 0 end.

Definition main_holding (m : cv_main_thread) : nat :=
  match m with In_enqueue _ _ | In_shutdown => 1 | _ => 0 end.

Definition holders (w : CvWorld) : nat :=
  main_holding (cv_main w) + sum_list_with holding (cv_workers w).

(** [stop] has been set when the main thread is here. *)
Definition past_stop (m : cv_main_thread) : bool :=
  match m with
  | At_notify_all | At_join _ | Shutdown_done => true
  | _ => false
  end.

(** [notify_all] has been called when the main thread is here. *)
Definition past_notify_all (m : cv_main_thread) : bool :=
  match m with At_join _ | Shutdown_done => true | _ => false end.

(** What holds in every state of a run of [n] workers:
    - the number of workers does not change;
    - the mutex is held by one thread when its flag is set, and by none
      otherwise;
    - [stop] is set from the end of the locked block of [shutdown] on;
    - no worker sleeps once [notify_all] has been called;
    - the [join] loop stays within the vector of workers. *)
Record cv_inv (n : nat) (w : CvWorld) : Prop := {
  cv_inv_workers : length (cv_workers w) = n;
  cv_inv_mutex : holders w = if queue_mutex w then 1%nat else 0%nat;
  cv_inv_stop : cv_stop w = past_stop (cv_main w);
  cv_inv_awake :
    past_notify_all (cv_main w) = true →
    existsb asleep (cv_workers w) = false;
  cv_inv_join : ∀ k, cv_main w = At_join k → (k ≤ n)%nat
}.




(** The state of the pool above that a state of this pool stands for:
    a worker anywhere between two tasks is [Waiting], and the main thread
    inside [enqueue] or [shutdown] is where that call began or ended. *)
Definition coarse_worker (x : cv_worker) : worker Task :=
  match x with
  | Calling task => Running task
  | Returned => Finished
  | _ => Waiting
  end.

Definition coarse_main (m : cv_main_thread) : main_thread Task :=
  match m with
  | Before_enqueue todo => Enqueueing todo
  | In_enqueue task todo => Enqueueing (task :: todo)
  | At_notify_one todo => Enqueueing todo
  | In_shutdown => Enqueueing []
  | At_notify_all => Joining 0
  | At_join k => Joining k
  | Shutdown_done => After_shutdown
  end.

Definition coarse (w : CvWorld) : World Task St :=
  {| pool := {| workers := coarse_worker <$> cv_workers w;
                tasks := cv_tasks w; stop := cv_stop w |};
     main := coarse_main (cv_main w);
     shared := cv_shared w; log := cv_log w;
     completed := cv_completed w |}.
End pool_with_condition.

Arguments cv_worker : clear implicits.
Arguments cv_main_thread : clear implicits.
Arguments CvWorld : clear implicits.

(** One worker and the one chunk of [tiny_file].  The worker goes to
    sleep before anything is enqueued, is unblocked by [notify_one],
    compresses, goes to sleep again, wakes up once for no reason, and is
    unblocked by [notify_all]. *)
Definition tiny_schedule : list cv_choice :=
  [Cv_worker 0; Cv_worker 0;
   Cv_main 0; Cv_main 0; Cv_main 0;
   Cv_worker 0; Cv_worker 0; Cv_worker 0;
   Cv_worker 0; Cv_worker 0;
   Cv_spurious 0; Cv_worker 0; Cv_worker 0;
   Cv_main 0; Cv_main 0; Cv_main 0;
   Cv_worker 0; Cv_worker 0;
   Cv_main 0; Cv_main 0].

(** The same run, up to the moment at which the main thread is in the
    [join] loop and the worker has been unblocked but has not yet taken
    the mutex. *)
Definition tiny_until_join : list cv_choice := take 16 tiny_schedule.

Definition cv_world_of (z : Zlib) (n : nat) (chunks : list Chunk)
    (cs : list cv_choice) : CvWorld Chunk (list CompressedChunk) :=
  default (cv_initial n chunks [])
    (cv_schedule (compress_task z) cs (cv_initial n chunks [])).

(** * Properties *)

(** ** Bytes and the length field *)

Lemma Z_of_byte_of_Z (n : Z) : Z_of_byte (byte_of_Z n) = n mod 256.
Proof.
  unfold Z_of_byte, byte_of_Z.
  assert (Hr : 0 ≤ n mod 256 < 256) by (apply Z.mod_pos_bound; lia).
  destruct (Byte.of_N (Z.to_N (n mod 256))) as [b|] eqn:Hb; simpl.
  - apply Byte.to_of_N in Hb. rewrite Hb. lia.
  - apply Byte.of_N_None_iff in Hb. lia.
Qed.

Lemma Z_of_byte_range (b : byte) : 0 ≤ Z_of_byte b < 256.
Proof. unfold Z_of_byte. pose proof (Byte.to_N_bounded b). lia. Qed.

Lemma testbit_above (n k i : Z) :
  0 ≤ n < 2 ^ k → 0 ≤ k ≤ i → Z.testbit n i = false.
Proof.
  intros Hn Hk. rewrite <- (Z.mod_small n (2 ^ k)) by lia.
  rewrite Z.testbit_mod_pow2 by lia.
  destruct (Z.ltb_spec i k); [lia | done].
Qed.

Lemma uint32_value_bytes (n : Z) :
  0 ≤ n < 2 ^ 32 → uint32_value (uint32_bytes n) = n.
Proof.
  intros Hn. unfold uint32_value, uint32_bytes.
  rewrite !Z_of_byte_of_Z. change 256 with (2 ^ 8).
  apply Z.bits_inj'. intros i Hi.
  rewrite !Z.lor_spec, !Z.shiftl_spec, !Z.testbit_mod_pow2 by lia.
  destruct (Z.lt_ge_cases i 8); [|destruct (Z.lt_ge_cases i 16);
    [|destruct (Z.lt_ge_cases i 24); [|destruct (Z.lt_ge_cases i 32)]]];
    repeat match goal with
      | |- context [(?a <? ?b)] => destruct (Z.ltb_spec a b); try lia
      end; simpl;
    rewrite ?(Z.testbit_neg_r _ (i - 8)), ?(Z.testbit_neg_r _ (i - 16)),
      ?(Z.testbit_neg_r _ (i - 24)) by lia;
    rewrite ?Z.shiftr_spec by lia;
    rewrite ?orb_false_r; simpl;
    try (f_equal; lia).
  symmetry. by apply (testbit_above n 32).
Qed.

Lemma uint32_bytes_length (n : Z) : length (uint32_bytes n) = 4%nat.
Proof. done. Qed.

Lemma uint32_of_size_small (n : nat) :
  Z.of_nat n < 2 ^ 32 → uint32_of_size n = Z.of_nat n.
Proof. intros H. unfold uint32_of_size. apply Z.mod_small. lia. Qed.

(** ** Vectors *)

Lemma overwrite_full (dst src : list byte) :
  (length dst ≤ length src)%nat → overwrite dst src = src.
Proof.
  intros H. unfold overwrite. rewrite drop_ge by done. apply app_nil_r.
Qed.

Lemma resize_overwrite (dst src : list byte) :
  vector_resize (length src) (overwrite dst src) = src.
Proof.
  unfold vector_resize, overwrite.
  rewrite take_app_length, length_app.
  replace (length src - (length src + length (drop (length src) dst)))%nat
    with 0%nat by lia.
  apply app_nil_r.
Qed.

(** The value of [CHUNK_SIZE], in a form that [lia] uses and that no
    tactic mistakes for an equation between constructors. *)
Lemma CHUNK_SIZE_eq : 1048576 ≤ Z.of_nat CHUNK_SIZE ≤ 1048576.
Proof. unfold CHUNK_SIZE. lia. Qed.

(** From here on [CHUNK_SIZE] is known through [CHUNK_SIZE_eq]; no tactic
    unfolds it into a unary numeral. *)
Global Opaque CHUNK_SIZE.

(** The buffer that [compressData] allocates for a chunk. *)
Lemma compressBound_range (n : Z) :
  0 ≤ n ≤ 2 ^ 20 → n + 13 ≤ compressBound n ≤ n + 333.
Proof.
  intros Hn. unfold compressBound. rewrite !Z.shiftr_div_pow2 by lia.
  assert (0 ≤ n / 2 ^ 12 ≤ 256).
  { split; [apply Z.div_pos; lia|apply Z.div_le_upper_bound; lia]. }
  assert (0 ≤ n / 2 ^ 14 ≤ 64).
  { split; [apply Z.div_pos; lia|apply Z.div_le_upper_bound; lia]. }
  assert (n / 2 ^ 25 = 0) as -> by (apply Z.div_small; lia).
  rewrite Z.mod_small; lia.
Qed.

Lemma compressData_cons (z : Zlib) (input : list byte) :
  input ≠ [] →
  compressData z input =
    match compress z input (compressBound (Z.of_nat (length input))) with
    | Z_OK out => Return out
    | Z_ERR _ => Throw Compression_failed
    end.
Proof.
  intros H. destruct input as [|b input]; [done|]. unfold compressData.
  destruct (compress z _ _); [|done]. by rewrite resize_overwrite.
Qed.

Lemma decompressData_cons (z : Zlib) (input : list byte) :
  input ≠ [] →
  decompressData z input =
    match uncompress z input (Z.of_nat CHUNK_SIZE) with
    | Z_OK out => Return out
    | Z_ERR result => Throw (Decompression_failed result)
    end.
Proof.
  intros H. destruct input as [|b input]; [done|]. unfold decompressData.
  cbv zeta. unfold vector_of_size. rewrite length_replicate.
  destruct (uncompress z _ _); [|done]. by rewrite resize_overwrite.
Qed.

(** ** Reading the chunks *)

Lemma istream_read_enough (l buf : list byte) (g n : nat) :
  (n ≤ length l)%nat → length buf = n →
  istream_read (fresh_stream l g) buf n = (take n l, fresh_stream (drop n l) n).
Proof.
  intros Hn Hb. unfold istream_read, fresh_stream; simpl.
  rewrite decide_True by done.
  rewrite overwrite_full; [done|]. rewrite length_take. lia.
Qed.

Lemma istream_read_short (l buf : list byte) (g n : nat) :
  (length l < n)%nat →
  istream_read (fresh_stream l g) buf n
  = (overwrite buf l, ended_stream (length l)).
Proof.
  intros Hn. unfold istream_read, fresh_stream; simpl.
  rewrite decide_False by lia. done.
Qed.

(** The reading loop ends, with the full chunks in [chunks] and the bytes
    after them at the start of [buffer]. *)
Lemma read_loop_spec (fuel size : nat) :
  (0 < size)%nat →
  ∀ (l buffer : list byte) (g id_counter : nat) (chunks : list Chunk),
    (length l < fuel)%nat → length buffer = size →
    ∃ fulls rest buffer',
      read_loop fuel size (fresh_stream l g) buffer id_counter chunks
      = Some (ended_stream (length rest), buffer',
              (id_counter + length fulls)%nat, chunks ++ fulls)
      ∧ l = concat (data <$> fulls) ++ rest
      ∧ (length rest < size)%nat
      ∧ Forall (λ c, length (data c) = size) fulls
      ∧ (∀ j c, fulls !! j = Some c → id c = (id_counter + j)%nat)
      ∧ length buffer' = size
      ∧ take (length rest) buffer' = rest.
Proof.
  intros Hsize. induction fuel as [|fuel IH]; intros l buffer g idc chunks Hl Hb.
  { lia. }
  simpl. destruct (decide (size ≤ length l)%nat) as [Hle|Hgt].
  - rewrite istream_read_enough by done. simpl.
    destruct (IH (drop size l) (take size l) size (S idc)
                (chunks ++ [{| id := idc; data := take size l |}]))
      as (fulls & rest & buffer' & Hrun & Hcat & Hrest & Hfull & Hid & Hlen & Htk).
    { rewrite length_drop. lia. }
    { rewrite length_take. lia. }
    exists ({| id := idc; data := take size l |} :: fulls), rest, buffer'.
    rewrite Hrun. split_and!; try done.
    + simpl. by rewrite <- app_assoc, Nat.add_succ_r.
    + rewrite fmap_cons, concat_cons, <- app_assoc, <- Hcat. simpl.
      by rewrite take_drop.
    + constructor; [|done]. simpl. rewrite length_take. lia.
    + intros [|j] c Hj; simpl in *.
      * inversion Hj; subst; simpl. lia.
      * rewrite (Hid j c Hj). lia.
  - rewrite istream_read_short by lia. simpl.
    exists [], l, (overwrite buffer l). rewrite app_nil_r, Nat.add_0_r.
    split_and!; try done; try lia.
    + unfold overwrite. rewrite length_app, length_drop. lia.
    + unfold overwrite. by rewrite take_app_length.
Qed.

Lemma length_concat_uniform (size : nat) (cs : list Chunk) :
  Forall (λ c, length (data c) = size) cs →
  length (concat (data <$> cs)) = (size * length cs)%nat.
Proof.
  induction 1 as [|c cs Hc _ IH]; [simpl; lia|].
  rewrite fmap_cons, concat_cons, length_app, IH, Hc. simpl. lia.
Qed.

(** What phase 1 returns: full chunks, then the rest if there is one. *)
Lemma read_chunks_spec (size : nat) (in_file : list byte) :
  (0 < size)%nat →
  ∃ fulls rest,
    read_chunks size in_file
    = Some (fulls ++ if decide (rest = []) then []
                     else [{| id := length fulls; data := rest |}])
    ∧ in_file = concat (data <$> fulls) ++ rest
    ∧ (length rest < size)%nat
    ∧ Forall (λ c, length (data c) = size) fulls
    ∧ (∀ j c, fulls !! j = Some c → id c = j).
Proof.
  intros Hsize. unfold read_chunks, ifstream_open.
  destruct (read_loop_spec (S (length in_file)) size Hsize in_file
              (vector_of_size size) 0 0 [])
    as (fulls & rest & buffer' & Hrun & Hcat & Hrest & Hfull & Hid & Hlen & Htk).
  { lia. } { apply length_replicate. }
  unfold fresh_stream in Hrun.
  rewrite Hrun. exists fulls, rest. simpl.
  split_and!; try done.
  destruct (decide (0 < length rest)%nat) as [Hpos|Hzero].
  - rewrite decide_False by (intros ->; simpl in Hpos; lia).
    do 4 f_equal. unfold vector_resize. rewrite Htk.
    replace (length rest - length buffer')%nat with 0%nat by lia.
    apply app_nil_r.
  - destruct rest; [|simpl in Hzero; lia]. simpl. by rewrite app_nil_r.
Qed.

(** C2.  For every input of length [L] and every chunk size [C > 0], the
    reading phase returns [ceil (L / C)] chunks; the chunk at position [i]
    has sequence number [i]; every chunk but the last has [C] bytes; the
    last one has [L mod C] bytes, or [C] when [C] divides [L]; and the
    payloads, concatenated in that order, are the input. *)
Theorem chunking_correct (C : nat) (input : list byte) :
  (0 < C)%nat →
  ∃ chunks,
    read_chunks C input = Some chunks
    ∧ length chunks = ((length input + C - 1) / C)%nat
    ∧ (∀ i c, chunks !! i = Some c → id c = i)
    ∧ (∀ i c, chunks !! i = Some c → (S i < length chunks)%nat →
              length (data c) = C)
    ∧ (∀ c, last chunks = Some c →
            length (data c) = if decide (length input mod C = 0)%nat then C
                              else (length input mod C)%nat)
    ∧ concat (data <$> chunks) = input.
Proof.
  intros HC.
  destruct (read_chunks_spec C input HC)
    as (fulls & rest & Hrun & Hcat & Hrest & Hfull & Hid).
  pose proof (length_concat_uniform C fulls Hfull) as Hlen.
  assert (HL : length input = (C * length fulls + length rest)%nat).
  { rewrite Hcat at 1. rewrite length_app. lia. }
  assert (Hmod : (length input mod C)%nat = length rest).
  { symmetry. by apply (Nat.mod_unique _ _ (length fulls)). }
  eexists. split; [exact Hrun|]. rewrite Hmod.
  destruct (decide (rest = [])) as [->|Hne].
  - rewrite app_nil_r in *. simpl in *.
    split_and!.
    + apply (Nat.div_unique _ _ _ (C - 1)); lia.
    + done.
    + intros i c Hi _. by eapply (Forall_lookup_1 _ _ _ _ Hfull).
    + intros c Hc. rewrite last_lookup in Hc. by eapply (Forall_lookup_1 _ _ _ _ Hfull).
    + by rewrite Hcat.
  - assert (0 < length rest)%nat by (destruct rest; [done|simpl; lia]).
    split_and!.
    + rewrite length_app. simpl.
      apply (Nat.div_unique _ _ _ (length rest - 1)); lia.
    + intros i c Hi. apply lookup_app_Some in Hi as [Hi|[Hge Hi]]; [eauto|].
      apply list_lookup_singleton_Some in Hi as [Hi <-]. simpl. lia.
    + intros i c Hi Hlt. rewrite length_app in Hlt. simpl in Hlt.
      rewrite lookup_app_l in Hi by lia.
      by eapply (Forall_lookup_1 _ _ _ _ Hfull).
    + intros c Hc. rewrite last_snoc in Hc. inversion Hc; subst; simpl.
      rewrite decide_False by lia. done.
    + rewrite fmap_app, concat_app. simpl. by rewrite app_nil_r.
Qed.

Lemma chunking_correct_witness :
  ∃ chunks,
    read_chunks 2 [x01; x02; x03; x04; x05] = Some chunks
    ∧ length chunks = ((5 + 2 - 1) / 2)%nat
    ∧ (∀ i c, chunks !! i = Some c → id c = i)
    ∧ (∀ i c, chunks !! i = Some c → (S i < length chunks)%nat →
              length (data c) = 2%nat)
    ∧ (∀ c, last chunks = Some c → length (data c) = 1%nat)
    ∧ concat (data <$> chunks) = [x01; x02; x03; x04; x05].
Proof. apply (chunking_correct 2 [x01; x02; x03; x04; x05]). lia. Defined.

(** The chunks of a run: at most [size] bytes each, none of them empty,
    numbered from zero. *)
Lemma read_chunks_numbered (size : nat) (in_file : list byte) :
  (0 < size)%nat →
  ∃ chunks,
    read_chunks size in_file = Some chunks
    ∧ id <$> chunks = seq 0 (length chunks)
    ∧ Forall (λ c, data c ≠ [] ∧ (length (data c) ≤ size)%nat) chunks
    ∧ concat (data <$> chunks) = in_file
    ∧ (chunks = [] ↔ in_file = []).
Proof.
  intros HC.
  destruct (read_chunks_spec size in_file HC)
    as (fulls & rest & Hrun & Hcat & Hrest & Hfull & Hid).
  eexists. split; [exact Hrun|].
  assert (Hids : id <$> fulls = seq 0 (length fulls)).
  { apply list_eq. intros j. rewrite list_lookup_fmap.
    destruct (fulls !! j) as [c|] eqn:Hj; cbn [fmap option_fmap option_map].
    - rewrite (Hid j c Hj). symmetry. apply lookup_seq.
      split; [done|]. by eapply lookup_lt_Some.
    - symmetry. apply lookup_seq_ge. by apply lookup_ge_None. }
  assert (Hfull' : Forall (λ c, data c ≠ [] ∧ (length (data c) ≤ size)%nat) fulls).
  { eapply Forall_impl; [exact Hfull|]. intros c Hc. cbv beta in *.
    split; [|lia]. intros Hnil. rewrite Hnil in Hc. cbn [length] in Hc. lia. }
  destruct (decide (rest = [])) as [->|Hne].
  - rewrite !app_nil_r in *. split_and!; try done.
    split; intros ->; [done|].
    symmetry in Hcat. destruct fulls as [|c fulls]; [done|].
    apply Forall_cons in Hfull' as [[Hc _] _].
    rewrite fmap_cons, concat_cons in Hcat.
    apply app_eq_nil in Hcat as [Hcat _]. done.
  - split_and!.
    + rewrite fmap_app, length_app, seq_app, Hids. done.
    + apply Forall_app. split; [done|].
      constructor; [|done]. cbn [data]. split; [done|lia].
    + rewrite fmap_app, concat_app. cbn [fmap list_fmap data concat].
      by rewrite app_nil_r.
    + split; [by intros ?%app_eq_nil%proj2|].
      intros ->. symmetry in Hcat. by apply app_eq_nil in Hcat as [_ ?].
Qed.

(** With a chunk size of zero the reading loop does not end. *)
Lemma read_loop_zero (fuel : nat) :
  ∀ (l buffer : list byte) (g id_counter : nat) (chunks : list Chunk),
    read_loop fuel 0 (fresh_stream l g) buffer id_counter chunks = None.
Proof.
  induction fuel as [|fuel IH]; intros l buffer g idc chunks; [done|].
  cbn [read_loop]. unfold istream_read.
  cbn [good fresh_stream eofbit failbit negb andb unread].
  rewrite decide_True by (cbn [length]; lia).
  cbn [stream_ok failbit negb]. rewrite drop_0. apply (IH l _ 0%nat).
Qed.

Lemma read_chunks_zero (in_file : list byte) : read_chunks 0 in_file = None.
Proof.
  unfold read_chunks.
  change (ifstream_open in_file) with (fresh_stream in_file 0).
  by rewrite read_loop_zero.
Qed.

Lemma read_chunks_Some (size : nat) (in_file : list byte) (chunks : list Chunk) :
  read_chunks size in_file = Some chunks →
  (0 < size)%nat
  ∧ id <$> chunks = seq 0 (length chunks)
  ∧ Forall (λ c, data c ≠ [] ∧ (length (data c) ≤ size)%nat) chunks
  ∧ concat (data <$> chunks) = in_file
  ∧ (chunks = [] ↔ in_file = []).
Proof.
  intros Hrun. destruct size as [|size].
  { by rewrite read_chunks_zero in Hrun. }
  destruct (read_chunks_numbered (S size) in_file) as (chunks' & Hrun' & H);
    [lia|].
  rewrite Hrun in Hrun'. injection Hrun' as <-. split; [lia|done].
Qed.

(** ** The decompressor, frame by frame *)

Lemma istream_peek_fresh (b : byte) (l : list byte) (g : nat) :
  istream_peek (fresh_stream (b :: l) g) = (Some b, fresh_stream (b :: l) 0).
Proof. done. Qed.

Lemma istream_peek_end (g : nat) :
  (istream_peek (fresh_stream [] g)).1 = None.
Proof. done. Qed.

(** The loop does not look at [gcount] before it reads. *)
Lemma decompress_loop_gcount (z : Zlib) (fuel : nat) (l out : list byte) (g : nat) :
  decompress_loop z fuel (fresh_stream l g) out
  = decompress_loop z fuel (fresh_stream l 0) out.
Proof. destruct fuel; [done|]. by destruct l. Qed.

Lemma decompress_loop_end (z : Zlib) (fuel : nat) (out : list byte) (g : nat) :
  decompress_loop z (S fuel) (fresh_stream [] g) out = Some (done_run 0 out []).
Proof. done. Qed.

(** A length field cut short ends the loop through [break]. *)
Lemma decompress_loop_partial_length (z : Zlib) (fuel : nat)
    (l out : list byte) (g : nat) :
  (0 < length l < 4)%nat →
  decompress_loop z (S fuel) (fresh_stream l g) out = Some (done_run 0 out []).
Proof.
  intros Hl. destruct l as [|b l]; [simpl in Hl; lia|].
  cbn [decompress_loop]. rewrite istream_peek_fresh.
  rewrite istream_read_short by lia. cbn [ended_stream gcount eof eofbit].
  rewrite decide_True by lia. done.
Qed.

Lemma decompress_loop_header (z : Zlib) (fuel : nat) (n : Z)
    (l out : list byte) (g : nat) :
  0 ≤ n < 2 ^ 32 →
  decompress_loop z (S fuel) (fresh_stream (uint32_bytes n ++ l) g) out
  = let '(compressedData, ins) :=
      istream_read (fresh_stream l 4) (vector_of_size (Z.to_nat n)) (Z.to_nat n) in
    if decide (Z.of_nat (gcount ins) ≠ n) then
      Some (done_run 1 out [Failed_to_read_chunk_data])
    else
      match decompressData z compressedData with
      | Return decompressedData =>
          decompress_loop z fuel ins (out ++ decompressedData)
      | Throw e => Some (done_run 1 out [Error_during_decompression e])
      end.
Proof.
  intros Hn. cbn [decompress_loop].
  change (uint32_bytes n ++ l) with (byte_of_Z n :: tail (uint32_bytes n) ++ l).
  rewrite istream_peek_fresh.
  change (byte_of_Z n :: tail (uint32_bytes n) ++ l) with (uint32_bytes n ++ l).
  rewrite istream_read_enough; [|rewrite length_app; simpl; lia|done].
  rewrite take_app_length', drop_app_length' by done.
  cbn [fresh_stream gcount]. rewrite decide_False by lia.
  by rewrite uint32_value_bytes.
Qed.

(** A payload shorter than the length field says. *)
Lemma decompress_loop_truncated (z : Zlib) (fuel : nat) (n : Z)
    (payload out : list byte) (g : nat) :
  0 ≤ n < 2 ^ 32 → Z.of_nat (length payload) < n →
  decompress_loop z (S fuel) (fresh_stream (uint32_bytes n ++ payload) g) out
  = Some (done_run 1 out [Failed_to_read_chunk_data]).
Proof.
  intros Hn Hp. rewrite decompress_loop_header by done.
  rewrite istream_read_short by lia. cbn [ended_stream gcount].
  rewrite decide_True by lia. done.
Qed.

(** A whole frame. *)
Lemma decompress_loop_frame (z : Zlib) (fuel : nat)
    (payload rest out : list byte) (g : nat) :
  Z.of_nat (length payload) < 2 ^ 32 →
  decompress_loop z (S fuel) (fresh_stream (frame payload ++ rest) g) out
  = match decompressData z payload with
    | Return d => decompress_loop z fuel (fresh_stream rest 0) (out ++ d)
    | Throw e => Some (done_run 1 out [Error_during_decompression e])
    end.
Proof.
  intros Hp. unfold frame. rewrite <- app_assoc.
  rewrite decompress_loop_header by lia.
  rewrite Nat2Z.id, istream_read_enough;
    [|rewrite length_app; lia|apply length_replicate].
  rewrite take_app_length, drop_app_length. cbn [fresh_stream gcount].
  rewrite decide_False by lia.
  destruct (decompressData z payload); [|done].
  apply decompress_loop_gcount.
Qed.

Lemma decompress_loop_frames (z : Zlib) (payloads ds : list (list byte)) :
  Forall2 (decodes z) payloads ds →
  ∀ (fuel : nat) (rest out : list byte) (g : nat),
    decompress_loop z (length payloads + fuel)
      (fresh_stream (frames payloads ++ rest) g) out
    = decompress_loop z fuel (fresh_stream rest 0) (out ++ concat ds).
Proof.
  induction 1 as [|p d ps ds [Hp Hd] _ IH]; intros fuel rest out g.
  - simpl. rewrite app_nil_r. apply decompress_loop_gcount.
  - unfold frames. rewrite fmap_cons, concat_cons, <- app_assoc.
    cbn [length Nat.add]. rewrite decompress_loop_frame by done.
    rewrite Hd. fold (frames ps). rewrite IH.
    by rewrite concat_cons, app_assoc.
Qed.

Lemma frames_length (payloads : list (list byte)) :
  (4 * length payloads ≤ length (frames payloads))%nat.
Proof.
  induction payloads as [|p ps IH]; [simpl; lia|].
  unfold frames in *. rewrite fmap_cons, concat_cons, length_app.
  unfold frame at 1. rewrite length_app, uint32_bytes_length. simpl. lia.
Qed.

(** [decompress_main] after the frames that decode: the loop goes on at
    the bytes that follow them, with fuel left. *)
Lemma decompress_main_frames (z : Zlib) (payloads ds : list (list byte))
    (rest : list byte) :
  Forall2 (decodes z) payloads ds →
  ∃ fuel,
    decompress_main z (frames payloads ++ rest)
    = decompress_loop z (S fuel) (fresh_stream rest 0) (concat ds)
    ∧ (length rest ≤ fuel)%nat.
Proof.
  intros Hds. pose proof (frames_length payloads) as Hlen.
  exists (length (frames payloads ++ rest) - length payloads)%nat.
  split; [|rewrite length_app; lia].
  unfold decompress_main.
  change (ifstream_open (frames payloads ++ rest))
    with (fresh_stream (frames payloads ++ rest) 0).
  replace (S (length (frames payloads ++ rest)))
    with (length payloads
          + S (length (frames payloads ++ rest) - length payloads))%nat
    by (rewrite length_app; lia).
  by rewrite (decompress_loop_frames z payloads ds Hds).
Qed.

(** The decompressor ends on every file. *)
Lemma decompress_loop_total (z : Zlib) (fuel : nat) :
  ∀ (l out : list byte) (g : nat),
    (length l < fuel)%nat →
    ∃ r, decompress_loop z fuel (fresh_stream l g) out = Some r.
Proof.
  induction fuel as [|fuel IH]; intros l out g Hl; [lia|].
  destruct l as [|b l]; [by eexists|].
  cbn [decompress_loop]. rewrite istream_peek_fresh.
  destruct (decide (4 ≤ length (b :: l))%nat) as [H4|H4].
  - rewrite istream_read_enough by done. cbn [fresh_stream gcount].
    rewrite decide_False by lia.
    set (n := Z.to_nat (uint32_value (take 4 (b :: l)))).
    destruct (decide (n ≤ length (drop 4 (b :: l)))%nat) as [Hn|Hn].
    + rewrite istream_read_enough by (done || apply length_replicate).
      cbn [fresh_stream gcount]. case_decide; [by eexists|].
      destruct (decompressData z _); [|by eexists].
      apply IH. rewrite !length_drop. simpl in *. lia.
    + rewrite istream_read_short by lia. cbn [ended_stream gcount].
      case_decide; [by eexists|].
      destruct (decompressData z _); [|by eexists].
      destruct fuel; [simpl in *; lia|]. by eexists.
  - rewrite istream_read_short by lia. cbn [ended_stream gcount eof eofbit].
    rewrite decide_True by lia. by eexists.
Qed.

Lemma decompress_main_total (z : Zlib) (in_file : list byte) :
  ∃ r, decompress_main z in_file = Some r.
Proof. apply decompress_loop_total. lia. Qed.

(** ** The decompressor on damaged containers *)

(** The branch that reports a bad length field is dead code: after
    [peek] has seen a byte, a short [read] always sets [eofbit]. *)
Lemma chunk_size_error_unreachable (z : Zlib) (fuel : nat) :
  ∀ (ins : ifstream) (out : list byte) (r : run),
    decompress_loop z fuel ins out = Some r →
    Failed_to_read_chunk_size ∉ cerr r.
Proof.
  induction fuel as [|fuel IH]; intros ins out r Hr; [done|].
  cbn [decompress_loop] in Hr.
  destruct (istream_peek ins) as [c ins1] eqn:Hpeek.
  assert (Hgood : c ≠ None → good ins1 = true).
  { unfold istream_peek in Hpeek. destruct (good ins) eqn:Hg.
    - destruct (unread ins); inversion Hpeek; subst; [done|]. intros _.
      unfold good in *. simpl. by destruct (eofbit ins), (failbit ins).
    - inversion Hpeek; subst. done. }
  destruct c as [b|]; [|inversion Hr; subst; simpl; apply not_elem_of_nil].
  destruct (istream_read ins1 (vector_of_size 4) 4) as [size_bytes ins2] eqn:Hrd.
  unfold istream_read in Hrd. rewrite Hgood in Hrd by done.
  destruct (decide (4 ≤ length (unread ins1))%nat);
    inversion Hrd; subst; clear Hrd; cbn [gcount eof eofbit] in Hr.
  - rewrite decide_False in Hr by lia.
    destruct (istream_read _ _ _) as [compressedData ins3].
    destruct (decide _).
    + inversion Hr; subst; simpl. by intros ?%list_elem_of_singleton.
    + destruct (decompressData z compressedData).
      * by eapply IH.
      * inversion Hr; subst; simpl. by intros ?%list_elem_of_singleton.
  - rewrite decide_True in Hr by lia.
    inversion Hr; subst; simpl. apply not_elem_of_nil.
Qed.

(** After frames that decode, one to three stray bytes are taken for the
    end of the container: exit code 0 and nothing on [std::cerr]. *)
Lemma partial_length_field_accepted (z : Zlib)
    (payloads ds : list (list byte)) (stray : list byte) :
  Forall2 (decodes z) payloads ds →
  (0 < length stray < 4)%nat →
  decompress_main z (frames payloads ++ stray)
  = Some (done_run 0 (concat ds) []).
Proof.
  intros Hds Hstray.
  destruct (decompress_main_frames z payloads ds stray Hds) as (fuel & -> & _).
  by apply decompress_loop_partial_length.
Qed.

(** C4, at the failing input.  The container is the single byte [01], a
    length field cut after its first byte: the decompressor leaves the
    loop through [break] and returns 0, with no diagnostic. *)
Theorem partial_length_field_reported_as_success (z : Zlib) :
  decompress_main z [x01]
  = Some {| exit_code := 0; out_file := []; cerr := [] |}.
Proof.
  apply (partial_length_field_accepted z [] [] [x01]);
    [constructor|simpl; lia].
Qed.

(** C8.  When the frames before it decode, a corrupt frame ends the run:
    the exit code is 1, the output file holds what the frames before it
    gave and nothing else, whatever follows the corrupt frame. *)
Theorem decompress_stops_at_first_bad_frame (z : Zlib)
    (payloads ds : list (list byte)) (bytes : list byte) (d : diagnostic) :
  Forall2 (decodes z) payloads ds →
  corrupt_frame z bytes d →
  decompress_main z (frames payloads ++ bytes)
  = Some {| exit_code := 1; out_file := concat ds; cerr := [d] |}.
Proof.
  intros Hds Hbad.
  destruct (decompress_main_frames z payloads ds bytes Hds) as (fuel & -> & _).
  destruct Hbad as [n payload Hn Hp|payload rest e Hp He].
  - by apply decompress_loop_truncated.
  - rewrite decompress_loop_frame by done. by rewrite He.
Qed.

Lemma stored_decodes (body : list byte) :
  (length body ≤ CHUNK_SIZE)%nat →
  decodes stored (x78 :: body) body.
Proof.
  intros Hb. pose proof CHUNK_SIZE_eq. split.
  - cbn [length]. lia.
  - rewrite decompressData_cons by done.
    cbn [uncompress stored stored_uncompress].
    rewrite decide_True by lia. done.
Qed.

Lemma stored_compresses (x : list byte) :
  x ≠ [] → (length x ≤ CHUNK_SIZE)%nat →
  compressData stored x = Return (x78 :: x).
Proof.
  intros Hx Hlen. pose proof CHUNK_SIZE_eq.
  rewrite compressData_cons by done.
  cbn [compress stored]. unfold stored_compress.
  pose proof (compressBound_range (Z.of_nat (length x))).
  rewrite decide_True; [done|]. cbn [length]. lia.
Qed.

Lemma stored_never_fails (x : list byte) :
  (length x ≤ CHUNK_SIZE)%nat → ∃ d, compressData stored x = Return d.
Proof.
  intros Hlen. destruct x as [|b x]; [by eexists|].
  eexists. by apply stored_compresses.
Qed.

Lemma stored_rejects (b : byte) (body : list byte) :
  b ≠ x78 →
  decompressData stored (b :: body) = Throw (Decompression_failed Z_DATA_ERROR).
Proof.
  intros Hb. rewrite decompressData_cons by done.
  cbn [uncompress stored stored_uncompress]. by destruct b.
Qed.

Lemma decompress_stops_at_first_bad_frame_witness :
  decompress_main stored
    (frames [[x78; x01]] ++ uint32_bytes 5 ++ [x78])
  = Some {| exit_code := 1; out_file := [x01];
            cerr := [Failed_to_read_chunk_data] |}
  ∧ decompress_main stored
      (frames [[x78; x01]] ++ frame [x79; x02] ++ frame [x78; x03])
    = Some {| exit_code := 1; out_file := [x01];
              cerr := [Error_during_decompression (Decompression_failed (-3))] |}.
Proof.
  assert (Hds : Forall2 (decodes stored) [[x78; x01]] [[x01]]).
  { constructor; [|constructor].
    apply stored_decodes. pose proof CHUNK_SIZE_eq. cbn [length]. lia. }
  split.
  - apply (decompress_stops_at_first_bad_frame stored [[x78; x01]] [[x01]]
             _ _ Hds).
    apply (payload_truncated stored 5 [x78]); simpl; lia.
  - apply (decompress_stops_at_first_bad_frame stored [[x78; x01]] [[x01]]
             _ _ Hds).
    apply (payload_rejected stored [x79; x02] (frame [x78; x03])).
    + simpl; lia.
    + by apply stored_rejects.
Defined.

(** ** The thread pool *)

Section pool_facts.
Context {Task St : Type} (call : Task → St → St * option runtime_error).
Implicit Types (w : World Task St) (ws : list (worker Task)) (p : ThreadPool Task).

Lemma running_cons (x : worker Task) ws :
  running (x :: ws) = running [x] ++ running ws.
Proof. by destruct x. Qed.

Lemma running_split ws i (x : worker Task) :
  ws !! i = Some x →
  running ws = running (take i ws) ++ running [x] ++ running (drop (S i) ws).
Proof.
  intros Hi. rewrite <- (take_drop_middle ws i x Hi) at 1.
  unfold running at 1. rewrite omap_app. fold (running (take i ws)).
  f_equal. apply running_cons.
Qed.

Lemma running_insert ws i (x y : worker Task) :
  ws !! i = Some x →
  running (<[i:=y]> ws) ++ running [x] ≡ₚ running ws ++ running [y].
Proof.
  intros Hi. rewrite (running_split ws i x Hi).
  rewrite insert_take_drop by (by eapply lookup_lt_Some).
  unfold running at 1. rewrite omap_app. fold (running (take i ws)).
  change (omap _ (y :: ?l)) with (running (y :: l)).
  rewrite (running_cons y). solve_Permutation.
Qed.

Lemma weight_insert ws i (x y : worker Task) :
  ws !! i = Some x →
  (sum_list_with worker_weight (<[i:=y]> ws) + worker_weight x
   = sum_list_with worker_weight ws + worker_weight y)%nat.
Proof.
  intros Hi. rewrite <- (take_drop_middle ws i x Hi) at 2.
  rewrite insert_take_drop by (by eapply lookup_lt_Some).
  rewrite !sum_list_with_app. simpl. lia.
Qed.

Lemma lookup_insert_Finished ws i j (x y : worker Task) :
  ws !! i = Some x → x ≠ Finished → y ≠ Finished →
  <[i:=y]> ws !! j = Some Finished → ws !! j = Some Finished.
Proof.
  intros Hi Hx Hy Hj. destruct (decide (i = j)) as [->|Hne].
  - rewrite list_lookup_insert_eq in Hj by (by eapply lookup_lt_Some).
    congruence.
  - by rewrite list_lookup_insert_ne in Hj.
Qed.

(** Every step lowers the weight: runs are finite. *)
Lemma step_weight w w' : step call w w' → (weight w' < weight w)%nat.
Proof.
  destruct 1 as [w task todo Hm|w Hm Hs|w Hm Hs|w k Hm Hk|w Hm
                |w i task q Hi Hq|w i task Hi|w i Hi Hs Hq];
    unfold weight; simpl; rewrite ?Hm, ?Hq; simpl.
  - unfold enqueue. destruct (stop (pool w)); simpl;
      rewrite ?length_app; simpl; lia.
  - lia.
  - lia.
  - apply lookup_lt_Some in Hk. lia.
  - lia.
  - rewrite length_insert.
    pose proof (weight_insert _ _ _ (Running task) Hi). simpl in *. lia.
  - rewrite length_insert.
    pose proof (weight_insert _ _ _ Waiting Hi). simpl in *. lia.
  - rewrite length_insert.
    pose proof (weight_insert _ _ _ Finished Hi). simpl in *. lia.
Qed.

Lemma pool_inv_initial (n : nat) (todo : list Task) (s : St) :
  pool_inv call n todo s (initial n todo s).
Proof.
  split; simpl.
  - apply length_replicate.
  - assert (running (replicate n (@Waiting Task)) = []) as ->.
    { induction n; [done|]. simpl. done. }
    by rewrite !app_nil_r.
  - done.
  - eauto.
  - intros i Hi. apply lookup_replicate in Hi as [? _]. done.
  - lia.
  - done.
Qed.

Lemma pool_inv_step (n : nat) (todo : list Task) (s : St) w w' :
  step call w w' → pool_inv call n todo s w → pool_inv call n todo s w'.
Proof.
  intros Hstep [Hw Ht He Hs Hf Hj Hsh].
  destruct Hstep as [w task rest Hm|w Hm Hst|w Hm Hst|w k Hm Hk|w Hm
                    |w i task q Hi Hq|w i task Hi|w i Hi Hst Hq].
  - (* enqueue *)
    pose proof (He _ Hm) as Hstop. unfold enqueue. rewrite Hstop.
    split; simpl; try done.
    + rewrite Hm in Ht. simpl in Ht. rewrite Ht. solve_Permutation.
    + eauto.
    + intros i Hi. destruct (Hf i Hi). congruence.
    + lia.
  - (* shutdown *)
    split; simpl; try done.
    + by rewrite Hm in Ht.
    + intros i Hi. destruct (Hf i Hi). congruence.
    + lia.
  - (* shutdown on a stopped pool *)
    pose proof (He _ Hm). congruence.
  - (* join *)
    split; simpl; try done.
    + by rewrite Hm in Ht.
    + intros Hst. destruct (Hs Hst) as [rest Hrest]. congruence.
    + intros i Hi. rewrite Hm in Hj. simpl in Hj.
      destruct (decide (i = k)) as [->|]; [done|]. apply Hj. lia.
  - (* the join loop is over *)
    split; simpl; try done.
    + by rewrite Hm in Ht.
    + intros Hst. destruct (Hs Hst) as [rest Hrest]. congruence.
    + intros i Hi. rewrite Hm in Hj. simpl in Hj. apply Hj. lia.
  - (* a worker takes a task *)
    assert (Hnone : ∀ j, workers (pool w) !! j ≠ Some Finished).
    { intros j Hfin. destruct (Hf j Hfin). congruence. }
    split; simpl; try done.
    + by rewrite length_insert.
    + rewrite Ht, Hq.
      pose proof (running_insert _ _ _ (Running task) Hi) as Hr.
      simpl in Hr. rewrite app_nil_r in Hr. rewrite Hr. solve_Permutation.
    + intros j Hfin. exfalso. apply (Hnone j).
      by apply (lookup_insert_Finished _ i j Waiting (Running task) Hi).
    + intros j Hlt. exfalso. by eapply Hnone, Hj.
  - (* the call of a task ends *)
    split; simpl; try done.
    + by rewrite length_insert.
    + rewrite Ht.
      pose proof (running_insert _ _ _ Waiting Hi) as Hr.
      simpl in Hr. rewrite app_nil_r in Hr. rewrite <- Hr. solve_Permutation.
    + intros j Hfin. apply (Hf j).
      by apply (lookup_insert_Finished _ i j (Running task) Waiting Hi).
    + intros j Hlt. specialize (Hj j Hlt).
      rewrite list_lookup_insert_ne; [done|]. intros ->. congruence.
    + unfold calls. rewrite foldl_snoc. fold (calls call (completed w) (s, [])).
      rewrite <- Hsh. done.
  - (* a worker returns *)
    split; simpl; try done.
    + by rewrite length_insert.
    + rewrite Ht.
      pose proof (running_insert _ _ _ Finished Hi) as Hr.
      simpl in Hr. rewrite !app_nil_r in Hr. by rewrite Hr.
    + intros j Hlt. specialize (Hj j Hlt).
      rewrite list_lookup_insert_ne; [done|]. intros ->. congruence.
Qed.

Lemma pool_inv_rtc (n : nat) (todo : list Task) (s : St) w :
  rtc (step call) (initial n todo s) w → pool_inv call n todo s w.
Proof.
  intros Hrun.
  apply (rtc_ind_r (R := step call) (pool_inv call n todo s)
           (initial n todo s)); [apply pool_inv_initial| |done].
  intros y z' _ Hyz Hy. by eapply pool_inv_step.
Qed.

(** [next] and [step] describe the same steps. *)
Lemma next_step c w w' : next call c w = Some w' → step call w w'.
Proof.
  unfold next. intros Hn. destruct c as [|i].
  - destruct (main w) as [[|task todo]|k|] eqn:Hm; [| | |done].
    + destruct (stop (pool w)) eqn:Hs; simplify_eq.
      * by apply step_shutdown_again.
      * by apply step_shutdown.
    + simplify_eq. by apply step_enqueue.
    + destruct (decide (k = length (workers (pool w)))) as [->|Hk].
      * simplify_eq. by apply step_joined.
      * destruct (workers (pool w) !! k) as [[| |]|] eqn:Hw; simplify_eq.
        by apply step_join.
  - destruct (workers (pool w) !! i) as [[|task|]|] eqn:Hw; simplify_eq.
    + destruct (tasks (pool w)) as [|task q] eqn:Hq.
      * destruct (stop (pool w)) eqn:Hs; simplify_eq.
        by apply step_return.
      * simplify_eq. by eapply step_pop.
    + by apply step_call.
Qed.

Lemma step_next w w' : step call w w' → ∃ c, next call c w = Some w'.
Proof.
  destruct 1 as [w task todo Hm|w Hm Hs|w Hm Hs|w k Hm Hk|w Hm
                |w i task q Hi Hq|w i task Hi|w i Hi Hs Hq].
  - exists Main. simpl. by rewrite Hm.
  - exists Main. simpl. by rewrite Hm, Hs.
  - exists Main. simpl. by rewrite Hm, Hs.
  - exists Main. simpl. rewrite Hm, Hk.
    apply lookup_lt_Some in Hk. rewrite decide_False by lia. done.
  - exists Main. simpl. rewrite Hm. by rewrite decide_True.
  - exists (Worker i). simpl. by rewrite Hi, Hq.
  - exists (Worker i). simpl. by rewrite Hi.
  - exists (Worker i). simpl. by rewrite Hi, Hq, Hs.
Qed.

Lemma run_schedule_rtc cs w w' :
  run_schedule call cs w = Some w' → rtc (step call) w w'.
Proof.
  unfold run_schedule. revert w. induction cs as [|c cs IH]; intros w Hrun.
  - simpl in Hrun. simplify_eq. apply rtc_refl.
  - simpl in Hrun. destruct (next call c w) as [w1|] eqn:Hn; simpl in Hrun.
    + eapply rtc_l; [by eapply next_step|by apply IH].
    + exfalso. clear -Hrun. induction cs; simpl in Hrun; [done|auto].
Qed.

(** Unless [shutdown] has returned, some thread can take a step. *)
Lemma pool_progress (n : nat) (todo : list Task) (s : St) w :
  pool_inv call n todo s w → main w ≠ After_shutdown →
  ∃ w', step call w w'.
Proof.
  intros [Hw Ht He Hs Hf Hj Hsh] Hmain.
  destruct (main w) as [[|task rest]|k|] eqn:Hm; [| | |done].
  - destruct (stop (pool w)) eqn:Hst; eexists;
      [by apply step_shutdown_again|by apply step_shutdown].
  - eexists. by apply step_enqueue.
  - simpl in Hj.
    destruct (decide (k = length (workers (pool w)))) as [Hk|Hk].
    { eexists. apply step_joined. by rewrite Hm, Hk. }
    assert (Hlt : (k < length (workers (pool w)))%nat).
    { destruct (decide (k < length (workers (pool w)))%nat); [done|].
      assert (Hn : workers (pool w) !! n = Some Finished) by (apply Hj; lia).
      apply lookup_lt_Some in Hn. lia. }
    destruct (lookup_lt_is_Some_2 _ _ Hlt) as [x Hx].
    destruct x as [|task|].
    + destruct (tasks (pool w)) as [|task q] eqn:Hq.
      * destruct (stop (pool w)) eqn:Hst.
        -- eexists. by apply (step_return call w k).
        -- destruct (Hs eq_refl) as [rest Hrest]. congruence.
      * eexists. by apply (step_pop call w k task q).
    + eexists. by apply (step_call call w k task).
    + eexists. by apply step_join.
Qed.

(** Every run can be continued until [shutdown] returns. *)
Lemma pool_run_ends (n : nat) (todo : list Task) (s : St) w :
  pool_inv call n todo s w →
  ∃ w', rtc (step call) w w' ∧ main w' = After_shutdown.
Proof.
  remember (weight w) as m eqn:Hm. revert w Hm.
  induction (lt_wf m) as [m _ IH]. intros w -> Hinv.
  assert (main w = After_shutdown ∨ main w ≠ After_shutdown) as [Hend|Hgo]
    by (destruct (main w); auto).
  { exists w. split; [apply rtc_refl|done]. }
  destruct (pool_progress n todo s w Hinv Hgo) as [w1 Hstep].
  destruct (IH (weight w1) (step_weight _ _ Hstep) w1 eq_refl) as (w' & Hrun & Hw').
  { by eapply pool_inv_step. }
  exists w'. split; [by eapply rtc_l|done].
Qed.

(** Once [shutdown] has returned nothing moves. *)
Lemma after_shutdown_final (n : nat) (todo : list Task) (s : St) w :
  pool_inv call n todo s w → main w = After_shutdown → nf (step call) w.
Proof.
  intros [Hw Ht He Hs Hf Hj Hsh] Hmain [w' Hstep].
  rewrite Hmain in Hj. simpl in Hj.
  assert (Hall : ∀ i x, workers (pool w) !! i = Some x → x = Finished).
  { intros i x Hi. pose proof (lookup_lt_Some _ _ _ Hi) as Hlt.
    rewrite Hw in Hlt. specialize (Hj i Hlt). congruence. }
  destruct Hstep as [w task todo' Hm|w Hm _|w Hm _|w k Hm Hk|w Hm
                    |w i task q Hi Hq|w i task Hi|w i Hi _ Hq];
    try congruence.
  - by specialize (Hall _ _ Hi).
  - by specialize (Hall _ _ Hi).
  - by specialize (Hall _ _ Hi).
Qed.

(** A pool without workers runs nothing. *)
Lemma no_workers_nothing_runs (todo : list Task) (s : St) w :
  rtc (step call) (initial 0 todo s) w →
  completed w = [] ∧ shared w = s ∧ log w = [].
Proof.
  intros Hrun.
  cut (workers (pool w) = [] ∧ completed w = [] ∧ shared w = s ∧ log w = []).
  { tauto. }
  apply (rtc_ind_r (R := step call)
           (λ w, workers (pool w) = [] ∧ completed w = []
                 ∧ shared w = s ∧ log w = [])
           (initial 0 todo s)); [done| |done].
  intros w1 w2 _ Hstep (Hws & Hc & Hsh & Hl).
  destruct Hstep as [w1 task todo' Hm|w1 Hm _|w1 Hm _|w1 k Hm Hk|w1 Hm
                    |w1 i task q Hi Hq|w1 i task Hi|w1 i Hi _ Hq];
    simpl; rewrite ?Hws in *; try done.
  unfold enqueue. by destruct (stop (pool w1)).
Qed.

(** The state in which [shutdown] returns, for a pool that has workers. *)
Lemma pool_after_shutdown (n : nat) (todo : list Task) (s : St) w :
  (0 < n)%nat →
  rtc (step call) (initial n todo s) w →
  main w = After_shutdown →
  completed w ≡ₚ todo
  ∧ tasks (pool w) = []
  ∧ running (workers (pool w)) = []
  ∧ Forall (λ x, x = Finished) (workers (pool w))
  ∧ (shared w, log w) = calls call (completed w) (s, []).
Proof.
  intros Hn Hrun Hmain.
  destruct (pool_inv_rtc n todo s w Hrun) as [Hw Ht He Hs Hf Hj Hsh].
  rewrite Hmain in Hj, Ht. simpl in Hj, Ht.
  assert (Hall : Forall (λ x, x = Finished) (workers (pool w))).
  { apply Forall_lookup. intros i x Hi.
    pose proof (lookup_lt_Some _ _ _ Hi) as Hlt. rewrite Hw in Hlt.
    specialize (Hj i Hlt). congruence. }
  assert (Hq : tasks (pool w) = []).
  { by destruct (Hf 0%nat (Hj 0%nat Hn)). }
  assert (Hr : running (workers (pool w)) = []).
  { clear -Hall. induction Hall as [|x ws -> _ IH]; [done|]. by simpl. }
  rewrite Hq, Hr in Ht. by rewrite Ht.
Qed.
End pool_facts.

(** ** Sorting by id *)

Lemma sorted_insert_perm (c : CompressedChunk) (l : list CompressedChunk) :
  sorted_insert c l ≡ₚ c :: l.
Proof.
  induction l as [|x l IH]; [done|]. simpl.
  destruct (id_less c x); [done|]. rewrite IH. apply Permutation_swap.
Qed.

Lemma std_sort_perm (l : list CompressedChunk) : std_sort l ≡ₚ l.
Proof.
  induction l as [|c l IH]; [done|]. simpl.
  rewrite sorted_insert_perm. by rewrite IH.
Qed.

Lemma sorted_insert_sorted (c : CompressedChunk) (l : list CompressedChunk) :
  StronglySorted by_id l → cc_id c ∉ cc_id <$> l →
  StronglySorted by_id (sorted_insert c l).
Proof.
  induction 1 as [|x l Hl IH Hx]; intros Hc; simpl.
  { repeat constructor. }
  rewrite fmap_cons, not_elem_of_cons in Hc. destruct Hc as [Hcx Hcl].
  unfold id_less. case_bool_decide as Hlt.
  - apply SSorted_cons; [by apply SSorted_cons|].
    constructor; [done|]. eapply Forall_impl; [exact Hx|].
    intros y Hy. unfold by_id in *. lia.
  - apply SSorted_cons; [by apply IH|].
    rewrite sorted_insert_perm. constructor; [|done]. unfold by_id. lia.
Qed.

Lemma std_sort_sorted (l : list CompressedChunk) :
  NoDup (cc_id <$> l) → StronglySorted by_id (std_sort l).
Proof.
  induction l as [|c l IH]; intros Hnd; simpl; [constructor|].
  rewrite fmap_cons in Hnd. apply NoDup_cons in Hnd as [Hc Hnd].
  apply sorted_insert_sorted; [by apply IH|]. by rewrite std_sort_perm.
Qed.

Lemma sorted_NoDup (l : list CompressedChunk) :
  StronglySorted by_id l → NoDup (cc_id <$> l).
Proof.
  induction 1 as [|x l Hl IH Hx]; [constructor|].
  rewrite fmap_cons. apply NoDup_cons. split; [|done].
  intros (y & Hy & Hin)%list_elem_of_fmap.
  rewrite Forall_forall in Hx. specialize (Hx y Hin). unfold by_id in Hx. lia.
Qed.

(** When the ids are pairwise distinct, sorting has one result only:
    whatever [std::sort] does, it returns [std_sort l]. *)
Lemma sort_unique (l l' : list CompressedChunk) :
  l' ≡ₚ l → StronglySorted by_id l' → std_sort l = l'.
Proof.
  intros Hperm Hsorted.
  apply (StronglySorted_unique_strong by_id).
  - unfold by_id. intros; lia.
  - apply std_sort_sorted. rewrite <- Hperm. by apply sorted_NoDup.
  - done.
  - by rewrite std_sort_perm.
Qed.

(** The same for the condition that the standard gives for a sorted
    range: no element compares less than an element before it. *)
Lemma sort_unique_weak (l l' : list CompressedChunk) :
  NoDup (cc_id <$> l) → l' ≡ₚ l →
  StronglySorted (λ a b, id_less b a = false) l' →
  std_sort l = l'.
Proof.
  intros Hnd Hperm Hsorted. apply sort_unique; [done|].
  assert (Hnd' : NoDup (cc_id <$> l')) by (by rewrite Hperm).
  clear Hperm Hnd. induction Hsorted as [|x k Hk IH Hx]; [constructor|].
  rewrite fmap_cons in Hnd'. apply NoDup_cons in Hnd' as [Hxk Hnd'].
  constructor; [by apply IH|].
  apply Forall_forall. intros y Hy.
  rewrite Forall_forall in Hx. specialize (Hx y Hy).
  unfold id_less in Hx. apply bool_decide_eq_false in Hx.
  assert (cc_id x ≠ cc_id y).
  { intros Heq. apply Hxk. rewrite Heq. by apply list_elem_of_fmap_2. }
  unfold by_id. lia.
Qed.

(** ** The compression tasks *)

Lemma calls_compress_task (z : Zlib) (ts : list Chunk)
    (s : list CompressedChunk) (es : list runtime_error) :
  calls (compress_task z) ts (s, es)
  = (s ++ omap (compressed z) ts, es ++ omap (failure z) ts).
Proof.
  unfold calls. revert s es. induction ts as [|t ts IH]; intros s es.
  { simpl. by rewrite !app_nil_r. }
  simpl. unfold call_logged at 2. simpl. rewrite IH.
  unfold compress_task, compressed, failure.
  destruct (compressData z (data t)); simpl;
    by rewrite <- ?app_assoc, ?app_nil_r.
Qed.

Lemma compressed_or_failure (z : Zlib) (c : Chunk) :
  (∃ d, compressData z (data c) = Return d
        ∧ compressed z c = Some {| cc_id := id c; cc_data := d |}
        ∧ failure z c = None)
  ∨ (∃ e, compressData z (data c) = Throw e
          ∧ compressed z c = None ∧ failure z c = Some e).
Proof.
  unfold compressed, failure.
  destruct (compressData z (data c)) as [d|e]; [left|right]; eauto.
Qed.

Lemma omap_cons_inv {A B} (f : A → option B) (x : A) (l : list A) :
  omap f (x :: l) = option_list (f x) ++ omap f l.
Proof. simpl. by destruct (f x). Qed.

(** Chunks numbered from [k] on compress to a list that is sorted. *)
Lemma compressed_sorted (z : Zlib) (chunks : list Chunk) (k : nat) :
  id <$> chunks = seq k (length chunks) →
  StronglySorted by_id (omap (compressed z) chunks)
  ∧ Forall (λ c, (k ≤ cc_id c)%nat) (omap (compressed z) chunks).
Proof.
  revert k. induction chunks as [|c cs IH]; intros k Hids.
  { split; constructor. }
  rewrite fmap_cons in Hids. simpl in Hids. injection Hids as Hc Hcs.
  destruct (IH (S k) Hcs) as [Hsorted Hge].
  assert (Hge' : Forall (λ c, (k ≤ cc_id c)%nat) (omap (compressed z) cs)).
  { eapply Forall_impl; [exact Hge|]. simpl. intros; lia. }
  rewrite omap_cons_inv.
  destruct (compressed_or_failure z c) as [(d & _ & -> & _)|(e & _ & -> & _)];
    simpl; [|done].
  split.
  - constructor; [done|]. eapply Forall_impl; [exact Hge|].
    unfold by_id. simpl. intros; lia.
  - constructor; [simpl; lia|done].
Qed.

Lemma compressed_ids (z : Zlib) (chunks : list Chunk) :
  (∀ c, c ∈ chunks → failure z c = None) →
  cc_id <$> omap (compressed z) chunks = id <$> chunks.
Proof.
  induction chunks as [|c cs IH]; intros Hok; [done|].
  pose proof (Hok c ltac:(left)) as Hc. rewrite omap_cons_inv.
  destruct (compressed_or_failure z c) as [(d & _ & -> & _)|(e & _ & _ & He)];
    [|congruence].
  change (cc_id <$> ({| cc_id := id c; cc_data := d |}
                       :: omap (compressed z) cs) = id c :: (id <$> cs)).
  rewrite fmap_cons. cbn [cc_id]. f_equal.
  apply IH. intros c' Hc'. apply Hok. by right.
Qed.

Lemma omap_length_split (z : Zlib) (chunks : list Chunk) :
  (length (omap (compressed z) chunks) + length (omap (failure z) chunks)
   = length chunks)%nat.
Proof.
  induction chunks as [|c cs IH]; [done|]. rewrite !omap_cons_inv, !length_app.
  destruct (compressed_or_failure z c) as [(d & _ & -> & ->)|(e & _ & -> & ->)];
    simpl; lia.
Qed.

(** ** The pool of the compressor *)

(** X19.  A pool of [n > 0] workers is given the tasks [todo], one
    [enqueue] after the other, and then [shutdown] is called.  In every
    interleaving, when [shutdown] has returned, the calls that have ended
    are the tasks that were enqueued, the queue is empty, no worker holds
    a task, every worker has returned from [worker_thread], and the shared
    state that the main thread then reads is the effect of all those
    calls.  The pool without workers is the subject of the last
    section. *)
Theorem shutdown_barrier {Task St : Type}
    (call : Task → St → St * option runtime_error)
    (n : nat) (todo : list Task) (s : St) (w : World Task St) :
  (0 < n)%nat →
  rtc (step call) (initial n todo s) w →
  main w = After_shutdown →
  completed w ≡ₚ todo
  ∧ tasks (pool w) = []
  ∧ running (workers (pool w)) = []
  ∧ Forall (λ x, x = Finished) (workers (pool w))
  ∧ (shared w, log w) = calls call (completed w) (s, []).
Proof. apply pool_after_shutdown. Qed.

Lemma world_of_run (z : Zlib) (n : nat) (chunks : list Chunk) (cs : list thread) :
  is_Some (run_schedule (compress_task z) cs (initial n chunks [])) →
  rtc (step (compress_task z)) (initial n chunks []) (world_of z n chunks cs).
Proof.
  intros [w Hw]. apply (run_schedule_rtc _ cs). unfold world_of.
  by rewrite Hw.
Qed.

Lemma demo_world_run (z : Zlib) (cs : list thread) :
  is_Some (run_schedule (compress_task z) cs (initial 2 demo_chunks [])) →
  rtc (step (compress_task z)) (initial 2 demo_chunks []) (demo_world z cs).
Proof. apply world_of_run. Qed.

Lemma shutdown_barrier_witness :
  completed (demo_world stored out_of_order) ≡ₚ demo_chunks
  ∧ tasks (pool (demo_world stored out_of_order)) = []
  ∧ running (workers (pool (demo_world stored out_of_order))) = []
  ∧ Forall (λ x, x = Finished) (workers (pool (demo_world stored out_of_order)))
  ∧ (shared (demo_world stored out_of_order),
     log (demo_world stored out_of_order))
    = calls (compress_task stored)
        (completed (demo_world stored out_of_order)) ([], []).
Proof.
  apply (shutdown_barrier (compress_task stored) 2 demo_chunks []
           (demo_world stored out_of_order)).
  - lia.
  - apply demo_world_run. vm_compute. eauto.
  - vm_compute. reflexivity.
Defined.

(** What the pool of the compressor leaves. *)
Lemma compress_pool_result (z : Zlib) (n : nat) (chunks : list Chunk)
    (w : World Chunk (list CompressedChunk)) :
  (0 < n)%nat →
  id <$> chunks = seq 0 (length chunks) →
  rtc (step (compress_task z)) (initial n chunks []) w →
  main w = After_shutdown →
  shared w ≡ₚ omap (compressed z) chunks
  ∧ log w ≡ₚ omap (failure z) chunks
  ∧ std_sort (shared w) = omap (compressed z) chunks.
Proof.
  intros Hn Hids Hrun Hmain.
  destruct (pool_after_shutdown (compress_task z) n chunks [] w Hn Hrun Hmain)
    as (Hperm & _ & _ & _ & Hsh).
  rewrite calls_compress_task in Hsh. simpl in Hsh.
  injection Hsh as Hshared Hlog.
  assert (Hp : shared w ≡ₚ omap (compressed z) chunks).
  { by rewrite Hshared, Hperm. }
  split_and!; [done|by rewrite Hlog, Hperm|].
  apply sort_unique; [done|]. by apply (compressed_sorted z chunks 0).
Qed.

(** X17.  The container does not depend on how [std::sort] sorts: the
    ids in [compressed_chunks] are pairwise distinct, so every list that
    is a sorted rearrangement of the vector gives the bytes that [main]
    writes. *)
Lemma any_sort_same_container (z : Zlib) (n : nat) (chunks : list Chunk)
    (w : World Chunk (list CompressedChunk)) (sorted : list CompressedChunk) :
  (0 < n)%nat →
  id <$> chunks = seq 0 (length chunks) →
  rtc (step (compress_task z)) (initial n chunks []) w →
  main w = After_shutdown →
  sorted ≡ₚ shared w →
  StronglySorted (λ a b, id_less b a = false) sorted →
  write_frames sorted = out_file (run_of w).
Proof.
  intros Hn Hids Hrun Hmain Hperm Hsorted.
  destruct (compress_pool_result z n chunks w Hn Hids Hrun Hmain)
    as (Hshared & _ & Hsort).
  cbn [out_file run_of]. f_equal. symmetry.
  apply sort_unique_weak; [|done..].
  rewrite Hshared. apply sorted_NoDup.
  by apply (compressed_sorted z chunks 0).
Qed.

Lemma chunk_by_id (chunks : list Chunk) (c c' : Chunk) :
  NoDup (id <$> chunks) → c ∈ chunks → c' ∈ chunks → id c = id c' → c = c'.
Proof.
  induction chunks as [|x xs IH]; intros Hnd Hc Hc' Hid.
  { by apply not_elem_of_nil in Hc. }
  rewrite fmap_cons in Hnd. apply NoDup_cons in Hnd as [Hx Hnd].
  apply elem_of_cons in Hc as [->|Hc]; apply elem_of_cons in Hc' as [->|Hc'].
  - done.
  - exfalso. apply Hx. rewrite Hid. by apply list_elem_of_fmap_2.
  - exfalso. apply Hx. rewrite <- Hid. by apply list_elem_of_fmap_2.
  - by apply IH.
Qed.

Lemma compress_with_inv (size : nat) (z : Zlib) (n : nat) (in_file : list byte)
    (chunks : list Chunk) (r : run) (w : World Chunk (list CompressedChunk)) :
  read_chunks size in_file = Some chunks →
  compress_with size z n in_file r (Some w) →
  r = run_of w
  ∧ chunks ≠ []
  ∧ id <$> chunks = seq 0 (length chunks)
  ∧ rtc (step (compress_task z)) (initial n chunks []) w
  ∧ main w = After_shutdown.
Proof.
  intros Hread Hrun. inversion Hrun as [|chunks' w' Hread' Hne Hsteps Hmain];
    subst.
  rewrite Hread in Hread'. injection Hread' as <-.
  by destruct (read_chunks_Some _ _ _ Hread) as (_ & Hids & _).
Qed.

(** The compressor ends on every input. *)
Lemma compress_with_total (size : nat) (z : Zlib) (n : nat) (in_file : list byte) :
  (0 < size)%nat → ∃ r ow, compress_with size z n in_file r ow.
Proof.
  intros Hsize.
  destruct (read_chunks_numbered size in_file Hsize) as (chunks & Hread & _).
  destruct chunks as [|c chunks].
  { do 2 eexists. by apply compress_empty. }
  destruct (pool_run_ends (compress_task z) n (c :: chunks) []
              (initial n (c :: chunks) []))
    as (w & Hrun & Hmain); [apply pool_inv_initial|].
  exists (run_of w), (Some w). by eapply compress_chunks.
Qed.

(** A run that a schedule picks is a run of [main]. *)
Lemma compress_scheduled_sound (size : nat) (z : Zlib) (n : nat)
    (cs : list thread) (in_file : list byte) (r : run) :
  compress_scheduled size z n cs in_file = Some r →
  ∃ ow, compress_with size z n in_file r ow.
Proof.
  unfold compress_scheduled. intros Hr.
  destruct (read_chunks size in_file) as [[|c chunks]|] eqn:Hread; [| |done].
  { injection Hr as <-. exists None. by apply compress_empty. }
  destruct (run_schedule _ cs _) as [w|] eqn:Hw; [|done].
  destruct (main w) eqn:Hmain; try done. injection Hr as <-.
  exists (Some w). apply (compress_chunks size z n in_file (c :: chunks));
    [done|done|by apply (run_schedule_rtc _ cs)|done].
Qed.

(** X20.  In a run of the compressor with [n > 0] workers in which the
    compression of every chunk succeeds, when [shutdown] has returned the
    vector [compressed_chunks] has one entry for every chunk, no id occurs
    in it twice, and its ids are the numbers below the number of
    chunks.  The run without workers is the subject of the last
    section. *)
Theorem result_set_complete (size : nat) (z : Zlib) (n : nat)
    (in_file : list byte) (chunks : list Chunk) (r : run)
    (w : World Chunk (list CompressedChunk)) :
  (0 < n)%nat →
  read_chunks size in_file = Some chunks →
  compress_with size z n in_file r (Some w) →
  (∀ c, c ∈ chunks → ∃ d, compressData z (data c) = Return d) →
  length (shared w) = length chunks
  ∧ NoDup (cc_id <$> shared w)
  ∧ (∀ k, k ∈ cc_id <$> shared w ↔ (k < length chunks)%nat).
Proof.
  intros Hn Hread Hrun Hok.
  destruct (compress_with_inv _ _ _ _ _ _ _ Hread Hrun)
    as (_ & _ & Hids & Hsteps & Hmain).
  destruct (compress_pool_result z n chunks w Hn Hids Hsteps Hmain)
    as (Hperm & _ & _).
  assert (Hcc : cc_id <$> shared w ≡ₚ seq 0 (length chunks)).
  { rewrite Hperm, compressed_ids, Hids; [done|].
    intros c Hc. destruct (Hok c Hc) as [d Hd].
    unfold failure. by rewrite Hd. }
  split_and!.
  - rewrite <- (length_fmap cc_id), Hcc. apply length_seq.
  - rewrite Hcc. apply NoDup_seq.
  - intros k. rewrite Hcc, elem_of_seq. lia.
Qed.

Lemma demo_read : read_chunks 2 demo_file = Some demo_chunks.
Proof. vm_compute. reflexivity. Qed.

Lemma demo_compress (z : Zlib) (cs : list thread) :
  is_Some (run_schedule (compress_task z) cs (initial 2 demo_chunks [])) →
  main (demo_world z cs) = After_shutdown →
  compress_with 2 z 2 demo_file (run_of (demo_world z cs))
    (Some (demo_world z cs)).
Proof.
  intros Hsome Hmain.
  apply (compress_chunks 2 z 2 demo_file demo_chunks);
    [apply demo_read|done|by apply demo_world_run|done].
Qed.

Lemma result_set_complete_witness :
  cc_id <$> shared (demo_world stored out_of_order) = [1; 2; 0]%nat
  ∧ length (shared (demo_world stored out_of_order)) = length demo_chunks
  ∧ NoDup (cc_id <$> shared (demo_world stored out_of_order))
  ∧ (∀ k, k ∈ cc_id <$> shared (demo_world stored out_of_order)
          ↔ (k < length demo_chunks)%nat).
Proof.
  split; [vm_compute; reflexivity|].
  apply (result_set_complete 2 stored 2 demo_file demo_chunks
           (run_of (demo_world stored out_of_order))
           (demo_world stored out_of_order)).
  - lia.
  - apply demo_read.
  - apply demo_compress; vm_compute; eauto.
  - intros c Hc. apply stored_never_fails.
    destruct (read_chunks_Some _ _ _ demo_read) as (_ & _ & Hall & _).
    rewrite Forall_forall in Hall. destruct (Hall c Hc) as [_ Hlen].
    pose proof CHUNK_SIZE_eq. lia.
Defined.

(** C3.  In a run of the compressor with [n > 0] workers, let the
    compression of the chunk [c] fail with [e].  Then [e] is logged by a
    worker, no entry of [compressed_chunks] has the id of [c], so the
    vector is shorter than the list of chunks; the run goes on to exit
    code 0, and the output file is made of the frames of the chunks that
    could be compressed, in the order of their ids, with nothing in the
    place of [c]. *)
Theorem failed_chunk_dropped (size : nat) (z : Zlib) (n : nat)
    (in_file : list byte) (chunks : list Chunk) (r : run)
    (w : World Chunk (list CompressedChunk)) (c : Chunk) (e : runtime_error) :
  (0 < n)%nat →
  read_chunks size in_file = Some chunks →
  compress_with size z n in_file r (Some w) →
  c ∈ chunks → compressData z (data c) = Throw e →
  Exception_in_worker e ∈ cerr r
  ∧ (id c ∉ cc_id <$> shared w)
  ∧ (length (shared w) < length chunks)%nat
  ∧ exit_code r = 0
  ∧ out_file r = write_frames (omap (compressed z) chunks)
  ∧ compressed z c = None.
Proof.
  intros Hn Hread Hrun Hc He.
  destruct (compress_with_inv _ _ _ _ _ _ _ Hread Hrun)
    as (-> & _ & Hids & Hsteps & Hmain).
  destruct (compress_pool_result z n chunks w Hn Hids Hsteps Hmain)
    as (Hperm & Hlog & Hsort).
  assert (Hnone : compressed z c = None) by (unfold compressed; by rewrite He).
  assert (Hfail : e ∈ omap (failure z) chunks).
  { apply list_elem_of_omap. exists c. split; [done|].
    unfold failure. by rewrite He. }
  split_and!; try done.
  - cbn [cerr run_of]. apply list_elem_of_fmap_2. by rewrite Hlog.
  - rewrite Hperm. intros (y & Hy & Hin)%list_elem_of_fmap.
    apply list_elem_of_omap in Hin as (c' & Hc' & Hcomp).
    assert (c = c') as <-.
    { apply (chunk_by_id chunks); [rewrite Hids; apply NoDup_seq|done..|].
      rewrite Hy. unfold compressed in Hcomp.
      destruct (compressData z (data c')); by simplify_eq. }
    congruence.
  - rewrite Hperm. pose proof (omap_length_split z chunks).
    destruct (omap (failure z) chunks); [by apply not_elem_of_nil in Hfail|].
    simpl in *. lia.
  - cbn [out_file run_of]. by rewrite Hsort.
Qed.

Lemma failed_chunk_dropped_witness :
  compress_with 2 picky 2 demo_file
    (run_of (demo_world picky out_of_order))
    (Some (demo_world picky out_of_order))
  ∧ out_file (run_of (demo_world picky out_of_order))
    = frame [x78; x01; x02] ++ frame [x78; x04]
  ∧ Exception_in_worker Compression_failed
    ∈ cerr (run_of (demo_world picky out_of_order))
  ∧ (id {| id := 1; data := [xff; x03] |}
     ∉ cc_id <$> shared (demo_world picky out_of_order))
  ∧ (length (shared (demo_world picky out_of_order)) < length demo_chunks)%nat
  ∧ exit_code (run_of (demo_world picky out_of_order)) = 0
  ∧ out_file (run_of (demo_world picky out_of_order))
    = write_frames (omap (compressed picky) demo_chunks)
  ∧ compressed picky {| id := 1; data := [xff; x03] |} = None.
Proof.
  assert (Hrun : compress_with 2 picky 2 demo_file
                   (run_of (demo_world picky out_of_order))
                   (Some (demo_world picky out_of_order))).
  { apply demo_compress; vm_compute; eauto. }
  split; [exact Hrun|]. split; [vm_compute; reflexivity|].
  apply (failed_chunk_dropped 2 picky 2 demo_file demo_chunks
           (run_of (demo_world picky out_of_order))
           (demo_world picky out_of_order)
           {| id := 1; data := [xff; x03] |} Compression_failed).
  - lia.
  - apply demo_read.
  - exact Hrun.
  - unfold demo_chunks. apply elem_of_cons. right. apply elem_of_cons. by left.
  - vm_compute. reflexivity.
Defined.

(** C6.  Two runs of the compressor on the same input, with the same
    chunk size, codec and number of workers, write the same bytes and
    return the same exit code, whatever the interleavings of the two runs
    are. *)
Theorem container_deterministic (size : nat) (z : Zlib) (n : nat)
    (in_file : list byte) (r1 r2 : run)
    (ow1 ow2 : option (World Chunk (list CompressedChunk))) :
  compress_with size z n in_file r1 ow1 →
  compress_with size z n in_file r2 ow2 →
  out_file r1 = out_file r2 ∧ exit_code r1 = exit_code r2.
Proof.
  intros H1 H2.
  destruct H1 as [Hread1|chunks1 w1 Hread1 Hne1 Hsteps1 Hmain1];
    destruct H2 as [Hread2|chunks2 w2 Hread2 Hne2 Hsteps2 Hmain2];
    try done; try congruence.
  rewrite Hread1 in Hread2. injection Hread2 as <-.
  split; [|done]. cbn [out_file run_of]. f_equal.
  destruct (read_chunks_Some _ _ _ Hread1) as (_ & Hids & _).
  destruct n as [|n].
  - destruct (no_workers_nothing_runs _ _ _ _ Hsteps1) as (_ & -> & _).
    by destruct (no_workers_nothing_runs _ _ _ _ Hsteps2) as (_ & -> & _).
  - destruct (compress_pool_result z (S n) chunks1 w1) as (_ & _ & ->);
      [lia|done..|].
    destruct (compress_pool_result z (S n) chunks1 w2) as (_ & _ & ->);
      [lia|done..|]. done.
Qed.

Lemma container_deterministic_witness :
  cc_id <$> shared (demo_world stored in_order) = [0; 1; 2]%nat
  ∧ cc_id <$> shared (demo_world stored out_of_order) = [1; 2; 0]%nat
  ∧ out_file (run_of (demo_world stored in_order))
    = out_file (run_of (demo_world stored out_of_order))
  ∧ exit_code (run_of (demo_world stored in_order))
    = exit_code (run_of (demo_world stored out_of_order)).
Proof.
  split; [vm_compute; reflexivity|]. split; [vm_compute; reflexivity|].
  apply (container_deterministic 2 stored 2 demo_file
           (run_of (demo_world stored in_order))
           (run_of (demo_world stored out_of_order))
           (Some (demo_world stored in_order))
           (Some (demo_world stored out_of_order)));
    apply demo_compress; vm_compute; eauto.
Defined.

(** ** The length field *)

Lemma compressData_length (z : Zlib) (payload out : list byte) :
  within_capacity z → (length payload ≤ CHUNK_SIZE)%nat →
  compressData z payload = Return out →
  Z.of_nat (length out) ≤ Z.of_nat (length payload) + 333.
Proof.
  intros Hfit Hlen Hout. pose proof CHUNK_SIZE_eq.
  destruct payload as [|b payload].
  { simpl in Hout. injection Hout as <-. simpl. lia. }
  rewrite compressData_cons in Hout by done.
  remember (compress z (b :: payload)
              (compressBound (Z.of_nat (length (b :: payload))))) as res eqn:Hc.
  destruct res as [out'|]; [|discriminate].
  injection Hout as ->. symmetry in Hc. apply Hfit in Hc.
  pose proof (compressBound_range (Z.of_nat (length (b :: payload)))). lia.
Qed.

Lemma write_frame_small (file : list byte) (c : CompressedChunk) :
  Z.of_nat (length (cc_data c)) < 2 ^ 32 →
  write_frame file c = file ++ frame (cc_data c).
Proof.
  intros Hc. unfold write_frame, frame.
  rewrite uint32_of_size_small by done.
  by rewrite Nat2Z.id, firstn_all.
Qed.

Lemma write_frames_small (cs : list CompressedChunk) :
  Forall (λ c, Z.of_nat (length (cc_data c)) < 2 ^ 32) cs →
  write_frames cs = frames (cc_data <$> cs).
Proof.
  unfold write_frames. intros Hcs.
  cut (∀ file, foldl write_frame file cs = file ++ frames (cc_data <$> cs)).
  { intros Hcut. apply (Hcut []). }
  induction Hcs as [|c cs Hc _ IH]; intros file.
  { simpl. by rewrite app_nil_r. }
  simpl. rewrite IH, write_frame_small by done.
  unfold frames. by rewrite fmap_cons, concat_cons, app_assoc.
Qed.

(** C10.  For a chunk of at most [CHUNK_SIZE] bytes and a [compress] that
    stays within its buffer, the output of [compressData] is shorter than
    [2 ^ 32] bytes.  So the conversion to [uint32_t] keeps its length, the
    frame that is written is the length in four bytes followed by the
    whole output, and the reader gets the length back from those four
    bytes and reads the same output. *)
Theorem frame_length_exact (z : Zlib) (payload out : list byte) :
  within_capacity z → (length payload ≤ CHUNK_SIZE)%nat →
  compressData z payload = Return out →
  Z.of_nat (length out) < 2 ^ 32
  ∧ uint32_of_size (length out) = Z.of_nat (length out)
  ∧ (∀ (file : list byte) (k : nat),
       write_frame file {| cc_id := k; cc_data := out |}
       = file ++ uint32_bytes (Z.of_nat (length out)) ++ out)
  ∧ uint32_value (uint32_bytes (uint32_of_size (length out)))
    = Z.of_nat (length out)
  ∧ (∀ (fuel : nat) (rest acc : list byte) (g k : nat),
       decompress_loop z (S fuel)
         (fresh_stream
            (write_frame [] {| cc_id := k; cc_data := out |} ++ rest) g) acc
       = match decompressData z out with
         | Return d => decompress_loop z fuel (fresh_stream rest 0) (acc ++ d)
         | Throw e => Some (done_run 1 acc [Error_during_decompression e])
         end).
Proof.
  intros Hfit Hlen Hout. pose proof CHUNK_SIZE_eq.
  pose proof (compressData_length z payload out Hfit Hlen Hout) as Hle.
  assert (Hsmall : Z.of_nat (length out) < 2 ^ 32) by lia.
  split_and!.
  - done.
  - by apply uint32_of_size_small.
  - intros file k. by rewrite write_frame_small.
  - rewrite uint32_of_size_small by done. apply uint32_value_bytes. lia.
  - intros fuel rest acc g k. rewrite write_frame_small by done.
    cbn [cc_data app]. by apply decompress_loop_frame.
Qed.

Lemma stored_within_capacity : within_capacity stored.
Proof.
  intros src destLen out. cbn [compress stored]. unfold stored_compress.
  case_decide; [|done]. by intros [= <-].
Qed.

Lemma frame_length_exact_witness :
  compressData stored [x01; x02] = Return [x78; x01; x02]
  ∧ uint32_of_size 3 = 3
  ∧ write_frame [] {| cc_id := 0; cc_data := [x78; x01; x02] |}
    = [x03; x00; x00; x00; x78; x01; x02]
  ∧ uint32_value [x03; x00; x00; x00] = 3.
Proof.
  assert (Hlen : (length [x01; x02] ≤ CHUNK_SIZE)%nat).
  { pose proof CHUNK_SIZE_eq. cbn [length]. lia. }
  assert (Hout : compressData stored [x01; x02] = Return [x78; x01; x02]).
  { apply stored_compresses; [discriminate|exact Hlen]. }
  destruct (frame_length_exact stored [x01; x02] [x78; x01; x02]
              stored_within_capacity Hlen Hout) as (_ & Hsize & Hframe & Hvalue & _).
  split; [exact Hout|]. split; [exact Hsize|].
  split; [exact (Hframe [] 0%nat)|exact Hvalue].
Defined.

(** ** Compressing and decompressing *)

Lemma chunk_roundtrip (z : Zlib) (x : list byte) :
  within_capacity z → codec_roundtrip z →
  x ≠ [] → (length x ≤ CHUNK_SIZE)%nat →
  ∃ c, compressData z x = Return c ∧ decodes z c x.
Proof.
  intros Hfit Hrt Hx Hlen. pose proof CHUNK_SIZE_eq.
  destruct (Hrt x Hx Hlen) as (c & Hc & Hne & Hu).
  assert (Hout : compressData z x = Return c).
  { rewrite compressData_cons by done. by rewrite Hc. }
  exists c. split; [done|]. split.
  - pose proof (compressData_length z x c Hfit Hlen Hout). lia.
  - rewrite decompressData_cons by done. by rewrite Hu.
Qed.

Lemma chunks_roundtrip (z : Zlib) (chunks : list Chunk) :
  within_capacity z → codec_roundtrip z →
  Forall (λ c, data c ≠ [] ∧ (length (data c) ≤ CHUNK_SIZE)%nat) chunks →
  Forall2 (decodes z) (cc_data <$> omap (compressed z) chunks) (data <$> chunks).
Proof.
  intros Hfit Hrt. induction 1 as [|c cs [Hne Hlen] _ IH]; [constructor|].
  destruct (chunk_roundtrip z (data c) Hfit Hrt Hne Hlen) as (d & Hd & Hdec).
  rewrite omap_cons_inv. unfold compressed at 1. rewrite Hd.
  cbn [option_list app]. rewrite !fmap_cons. cbn [cc_data]. by constructor.
Qed.

(** X18.  With at least one worker, and a codec that gives back what
    it was given and stays within its buffers, the decompressor turns
    every output file of the compressor back into the input file, and
    returns 0.  The run without workers is the subject of the last
    section. *)
Theorem round_trip (z : Zlib) (n : nat) (in_file : list byte) (r : run)
    (ow : option (World Chunk (list CompressedChunk))) :
  (0 < n)%nat → within_capacity z → codec_roundtrip z →
  compress_main z n in_file r ow →
  decompress_main z (out_file r)
  = Some {| exit_code := 0; out_file := in_file; cerr := [] |}.
Proof.
  intros Hn Hfit Hrt Hrun. unfold compress_main in Hrun.
  destruct Hrun as [Hread|chunks w Hread Hne Hsteps Hmain].
  - destruct (read_chunks_Some _ _ _ Hread) as (_ & _ & _ & _ & Hnil).
    rewrite (proj1 Hnil eq_refl). done.
  - destruct (read_chunks_Some _ _ _ Hread) as (_ & Hids & Hall & Hcat & _).
    destruct (compress_pool_result z n chunks w Hn Hids Hsteps Hmain)
      as (_ & _ & Hsort).
    pose proof (chunks_roundtrip z chunks Hfit Hrt Hall) as Hdec.
    cbn [out_file run_of]. rewrite Hsort, write_frames_small.
    + rewrite <- (app_nil_r (frames _)).
      destruct (decompress_main_frames z _ _ [] Hdec) as (fuel & -> & _).
      rewrite decompress_loop_end, Hcat. done.
    + pose proof (proj1 (Forall2_fmap_l _ _ _ _) Hdec) as Hdec'.
      eapply Forall2_Forall_l; [exact Hdec'|].
      apply Forall_true. intros p d' [Hp _]. exact Hp.
Qed.

(** The compressor ends on every input. *)
Lemma compress_main_total (z : Zlib) (n : nat) (in_file : list byte) :
  ∃ r ow, compress_main z n in_file r ow.
Proof.
  apply compress_with_total. pose proof CHUNK_SIZE_eq. lia.
Qed.

Lemma stored_roundtrip : codec_roundtrip stored.
Proof.
  intros x Hx Hlen. pose proof CHUNK_SIZE_eq.
  pose proof (compressBound_range (Z.of_nat (length x))).
  exists (x78 :: x). cbn [compress uncompress stored].
  unfold stored_compress, stored_uncompress.
  rewrite !decide_True; [done|lia|cbn [length]; lia].
Qed.

Lemma tiny_read : read_chunks CHUNK_SIZE tiny_file = Some tiny_chunks.
Proof. vm_compute. reflexivity. Qed.

Lemma tiny_compress :
  compress_main stored 1 tiny_file
    (run_of (world_of stored 1 tiny_chunks one_worker))
    (Some (world_of stored 1 tiny_chunks one_worker)).
Proof.
  apply (compress_chunks CHUNK_SIZE stored 1 tiny_file tiny_chunks).
  - apply tiny_read.
  - discriminate.
  - apply world_of_run. vm_compute. eauto.
  - vm_compute. reflexivity.
Qed.

Lemma round_trip_witness :
  out_file (run_of (world_of stored 1 tiny_chunks one_worker))
  = [x04; x00; x00; x00; x78; x01; x02; x03]
  ∧ decompress_main stored
      (out_file (run_of (world_of stored 1 tiny_chunks one_worker)))
    = Some {| exit_code := 0; out_file := tiny_file; cerr := [] |}.
Proof.
  split; [vm_compute; reflexivity|].
  apply (round_trip stored 1 tiny_file
           (run_of (world_of stored 1 tiny_chunks one_worker))
           (Some (world_of stored 1 tiny_chunks one_worker))).
  - lia.
  - apply stored_within_capacity.
  - apply stored_roundtrip.
  - apply tiny_compress.
Defined.


(** ** The empty file *)

(** C9.  On an empty input file the compressor returns 0 and leaves an
    empty output file, and it does so before it constructs the pool; it
    has no other run.  On an empty container the decompressor returns 0
    and leaves an empty output file. *)
Theorem empty_input (z : Zlib) (n : nat) :
  (∀ r ow, compress_main z n [] r ow
           ↔ r = {| exit_code := 0; out_file := []; cerr := [] |} ∧ ow = None)
  ∧ decompress_main z []
    = Some {| exit_code := 0; out_file := []; cerr := [] |}.
Proof.
  assert (Hread : read_chunks CHUNK_SIZE [] = Some []).
  { destruct (read_chunks_numbered CHUNK_SIZE []) as (chunks & Hread & _ & _ & _ & Hnil).
    { pose proof CHUNK_SIZE_eq. lia. }
    by rewrite (proj2 Hnil eq_refl) in Hread. }
  split; [|done]. intros r ow. unfold compress_main. split.
  - intros [_|chunks w Hread' Hne _ _]; [done|]. congruence.
  - intros [-> ->]. by apply compress_empty.
Qed.

(** * Further properties *)

(** ** The decompressor as a decoder of streams *)

Lemma prepend_out_app (a d : list byte) (r : run) :
  prepend_out a (prepend_out d r) = prepend_out (a ++ d) r.
Proof. unfold prepend_out. simpl. by rewrite app_assoc. Qed.

(** What has been written before the loop goes on stays in front of what
    the loop adds. *)
Lemma decompress_loop_acc (z : Zlib) (fuel : nat) :
  ∀ (ins : ifstream) (acc : list byte),
    decompress_loop z fuel ins acc
    = prepend_out acc <$> decompress_loop z fuel ins [].
Proof.
  induction fuel as [|fuel IH]; intros ins acc; [done|].
  cbn [decompress_loop].
  destruct (istream_peek ins) as [[b|] ins1];
    [|by unfold prepend_out; simpl; rewrite app_nil_r].
  destruct (istream_read ins1 (vector_of_size 4) 4) as [size_bytes ins2].
  destruct (decide (gcount ins2 ≠ 4%nat)).
  { destruct (eof ins2); unfold prepend_out; simpl; by rewrite app_nil_r. }
  destruct (istream_read ins2 _ _) as [compressedData ins3].
  destruct (decide _).
  { unfold prepend_out; simpl; by rewrite app_nil_r. }
  destruct (decompressData z compressedData) as [d|e].
  - rewrite (IH ins3 (acc ++ d)), (IH ins3 ([] ++ d)).
    destruct (decompress_loop z fuel ins3 []) as [r|]; [|done].
    simpl. by rewrite prepend_out_app.
  - unfold prepend_out; simpl; by rewrite app_nil_r.
Qed.

(** Fuel beyond the length of what is left to read changes nothing. *)
Lemma decompress_loop_fuel (z : Zlib) (fuel1 : nat) :
  ∀ (fuel2 : nat) (l acc : list byte) (g : nat),
    (length l < fuel1)%nat → (length l < fuel2)%nat →
    decompress_loop z fuel1 (fresh_stream l g) acc
    = decompress_loop z fuel2 (fresh_stream l g) acc.
Proof.
  induction fuel1 as [|fuel1 IH]; intros fuel2 l acc g H1 H2; [lia|].
  destruct fuel2 as [|fuel2]; [lia|].
  destruct l as [|b l]; [done|].
  cbn [decompress_loop]. rewrite istream_peek_fresh.
  destruct (decide (4 ≤ length (b :: l))%nat) as [H4|H4].
  - rewrite istream_read_enough by done. cbn [fresh_stream gcount].
    rewrite decide_False by lia.
    set (n := Z.to_nat (uint32_value (take 4 (b :: l)))).
    destruct (decide (n ≤ length (drop 4 (b :: l)))%nat) as [Hn|Hn].
    + rewrite istream_read_enough by (done || apply length_replicate).
      cbn [fresh_stream gcount]. destruct (decide _); [done|].
      destruct (decompressData z _); [|done].
      apply IH; rewrite !length_drop; simpl in *; lia.
    + rewrite istream_read_short by lia. cbn [ended_stream gcount].
      destruct (decide _); [done|].
      destruct (decompressData z _); [|done].
      destruct fuel1, fuel2; simpl in *; (lia || done).
  - rewrite istream_read_short by lia. cbn [ended_stream gcount eof eofbit].
    rewrite !decide_True by lia. done.
Qed.

Lemma decompress_main_frame_aux (z : Zlib) (payload rest : list byte) :
  Z.of_nat (length payload) < 2 ^ 32 →
  decompress_main z (frame payload ++ rest)
  = match decompressData z payload with
    | Return d => prepend_out d <$> decompress_main z rest
    | Throw e => Some (done_run 1 [] [Error_during_decompression e])
    end.
Proof.
  intros Hp. unfold decompress_main.
  change (ifstream_open (frame payload ++ rest))
    with (fresh_stream (frame payload ++ rest) 0).
  rewrite decompress_loop_frame by done.
  destruct (decompressData z payload) as [d|e]; [|done].
  rewrite decompress_loop_acc, app_nil_l.
  change (ifstream_open rest) with (fresh_stream rest 0). f_equal.
  apply decompress_loop_fuel; [|lia].
  rewrite length_app. unfold frame. rewrite length_app, uint32_bytes_length. lia.
Qed.

(** X1.  The decompressor decodes frame by frame: on a file that starts
    with a whole frame, it fails with exit code 1 and an empty output
    when the codec rejects the payload, and otherwise does what it does
    on the rest of the file, with the decoded payload in front of the
    output. *)
Theorem decompress_frame_then_rest (z : Zlib) (payload rest : list byte) :
  Z.of_nat (length payload) < 2 ^ 32 →
  decompress_main z (frame payload ++ rest)
  = match decompressData z payload with
    | Return d => prepend_out d <$> decompress_main z rest
    | Throw e =>
        Some {| exit_code := 1; out_file := [];
                cerr := [Error_during_decompression e] |}
    end.
Proof. apply decompress_main_frame_aux. Qed.

Lemma decompress_frame_then_rest_witness :
  decompress_main stored (frame [x78; x01] ++ [x00; x00])
  = prepend_out [x01] <$> decompress_main stored [x00; x00]
  ∧ decompress_main stored (frame [x78; x01] ++ [x00; x00])
    = Some {| exit_code := 0; out_file := [x01]; cerr := [] |}.
Proof.
  assert (H : decompress_main stored (frame [x78; x01] ++ [x00; x00])
              = prepend_out [x01] <$> decompress_main stored [x00; x00]).
  { rewrite (decompress_frame_then_rest stored [x78; x01] [x00; x00]);
      [|cbn [length]; lia].
    destruct (stored_decodes [x01]) as [_ ->]; [|done].
    pose proof CHUNK_SIZE_eq. cbn [length]. lia. }
  split; [exact H|]. rewrite H. vm_compute. reflexivity.
Defined.

(** X2.  A container made of frames that all decode is turned into the
    decoded payloads, one after the other, with exit code 0 and nothing
    on [std::cerr]; a frame of length zero adds nothing. *)
Theorem decompress_well_formed (z : Zlib) (payloads ds : list (list byte)) :
  Forall2 (decodes z) payloads ds →
  decompress_main z (frames payloads)
  = Some {| exit_code := 0; out_file := concat ds; cerr := [] |}.
Proof.
  intros Hds. rewrite <- (app_nil_r (frames payloads)).
  destruct (decompress_main_frames z payloads ds [] Hds) as (fuel & -> & _).
  apply decompress_loop_end.
Qed.

Lemma decompress_well_formed_witness :
  decompress_main stored (frames [[x78; x01]; []; [x78; x02; x03]])
  = Some {| exit_code := 0; out_file := concat [[x01]; []; [x02; x03]];
            cerr := [] |}.
Proof.
  apply (decompress_well_formed stored [[x78; x01]; []; [x78; x02; x03]]
           [[x01]; []; [x02; x03]]).
  pose proof CHUNK_SIZE_eq.
  constructor; [apply stored_decodes; cbn [length]; lia|].
  constructor; [split; [cbn [length]; lia|reflexivity]|].
  constructor; [apply stored_decodes; cbn [length]; lia|constructor].
Defined.

(** X3.  The decompressor ends on every file, and it ends in one of two
    ways: exit code 0 and nothing on [std::cerr], or exit code 1 and one
    diagnostic, which is not the one for a bad length field. *)
Theorem decompress_main_outcome (z : Zlib) (in_file : list byte) :
  ∃ r, decompress_main z in_file = Some r
       ∧ ((exit_code r = 0 ∧ cerr r = [])
          ∨ (exit_code r = 1
             ∧ (cerr r = [Failed_to_read_chunk_data]
                ∨ ∃ e, cerr r = [Error_during_decompression e]))).
Proof.
  destruct (decompress_main_total z in_file) as [r Hr].
  exists r. split; [done|].
  pose proof (chunk_size_error_unreachable z _ _ _ _ Hr) as Hdead.
  revert Hr Hdead. unfold decompress_main.
  generalize (S (length in_file)) (ifstream_open in_file) (@nil byte).
  intros fuel. induction fuel as [|fuel IH]; intros ins out Hr Hdead; [done|].
  cbn [decompress_loop] in Hr.
  destruct (istream_peek ins) as [[b|] ins1];
    [|injection Hr as <-; by left].
  destruct (istream_read ins1 (vector_of_size 4) 4) as [size_bytes ins2].
  destruct (decide (gcount ins2 ≠ 4%nat)).
  { destruct (eof ins2); injection Hr as <-; [by left|].
    exfalso. apply Hdead. simpl. by left. }
  destruct (istream_read ins2 _ _) as [compressedData ins3].
  destruct (decide _).
  { injection Hr as <-. right. split; [done|by left]. }
  destruct (decompressData z compressedData) as [d|e].
  - by eapply IH.
  - injection Hr as <-. right. split; [done|]. right. by eexists.
Qed.

(** ** The thread pool, at every moment of a run *)

Section pool_more.
Context {Task St : Type} (call : Task → St → St * option runtime_error).
Implicit Types (w : World Task St) (ws : list (worker Task)).

Lemma running_one (x : worker Task) i (y : worker Task) :
  [x] !! i = Some y → i = 0%nat ∧ x = y.
Proof. destruct i; simpl; [by intros [= ->]|done]. Qed.

(** The tasks leave the queue in the order in which they were given. *)
Lemma fifo_step (n : nat) (todo : list Task) (s : St) w w' :
  pool_inv call n todo s w → step call w w' →
  (∃ started, todo = started ++ tasks (pool w) ++ pending (main w)
              ∧ started ≡ₚ running (workers (pool w)) ++ completed w) →
  ∃ started, todo = started ++ tasks (pool w') ++ pending (main w')
             ∧ started ≡ₚ running (workers (pool w')) ++ completed w'.
Proof.
  intros Hinv Hstep (started & Htodo & Hstarted).
  destruct Hstep as [w task rest Hm|w Hm Hst|w Hm Hst|w k Hm Hk|w Hm
                    |w i task q Hi Hq|w i task Hi|w i Hi Hst Hq]; simpl.
  - pose proof (inv_enqueueing _ _ _ _ _ Hinv _ Hm) as Hstop.
    unfold enqueue. rewrite Hstop. simpl. exists started.
    rewrite Hm in Htodo. simpl in Htodo. by rewrite <- app_assoc.
  - exists started. by rewrite Hm in Htodo.
  - exists started. by rewrite Hm in Htodo.
  - exists started. by rewrite Hm in Htodo.
  - exists started. by rewrite Hm in Htodo.
  - exists (started ++ [task]). rewrite Hq in Htodo. split.
    + by rewrite <- app_assoc.
    + pose proof (running_insert _ _ _ (Running task) Hi) as Hr.
      simpl in Hr. rewrite app_nil_r in Hr. rewrite Hr, Hstarted.
      solve_Permutation.
  - exists started. split; [done|]. rewrite Hstarted.
    pose proof (running_insert _ _ _ Waiting Hi) as Hr.
    simpl in Hr. rewrite app_nil_r in Hr. rewrite <- Hr. solve_Permutation.
  - exists started. split; [done|]. rewrite Hstarted.
    pose proof (running_insert _ _ _ Finished Hi) as Hr.
    simpl in Hr. rewrite !app_nil_r in Hr. by rewrite Hr.
Qed.

Lemma running_replicate_Waiting (n : nat) :
  running (replicate n (@Waiting Task)) = [].
Proof. induction n; [done|]. by simpl. Qed.

Lemma fifo_rtc (n : nat) (todo : list Task) (s : St) w :
  rtc (step call) (initial n todo s) w →
  ∃ started, todo = started ++ tasks (pool w) ++ pending (main w)
             ∧ started ≡ₚ running (workers (pool w)) ++ completed w.
Proof.
  intros Hrun.
  apply (rtc_ind_r (R := step call)
           (λ w, rtc (step call) (initial n todo s) w
                 ∧ ∃ started,
                     todo = started ++ tasks (pool w) ++ pending (main w)
                     ∧ started ≡ₚ running (workers (pool w)) ++ completed w)
           (initial n todo s)); [| |done].
  - split; [apply rtc_refl|]. exists []. simpl.
    by rewrite running_replicate_Waiting.
  - intros w1 w2 _ Hstep [Hw1 IH]. split; [by eapply rtc_r|].
    eapply fifo_step; [by apply pool_inv_rtc|done..].
Qed.

(** With one worker the calls end in the order in which the tasks were
    given. *)
Lemma sequential_step (todo : list Task) (s : St) w w' :
  pool_inv call 1 todo s w → step call w w' →
  todo = completed w ++ running (workers (pool w))
         ++ tasks (pool w) ++ pending (main w) →
  todo = completed w' ++ running (workers (pool w'))
         ++ tasks (pool w') ++ pending (main w').
Proof.
  intros Hinv Hstep Htodo.
  pose proof (inv_workers _ _ _ _ _ Hinv) as Hlen.
  destruct (workers (pool w)) as [|x [|? ?]] eqn:Hws; try done.
  destruct Hstep as [w task rest Hm|w Hm Hst|w Hm Hst|w k Hm Hk|w Hm
                    |w i task q Hi Hq|w i task Hi|w i Hi Hst Hq];
    simpl; rewrite ?Hws in *.
  - pose proof (inv_enqueueing _ _ _ _ _ Hinv _ Hm) as Hstop.
    unfold enqueue. rewrite Hstop. simpl. rewrite Hws.
    rewrite Hm in Htodo. simpl in Htodo. by rewrite <- app_assoc.
  - by rewrite Hm in Htodo.
  - by rewrite Hm in Htodo.
  - by rewrite Hm in Htodo.
  - by rewrite Hm in Htodo.
  - apply running_one in Hi as [-> ->].
    rewrite Hq in Htodo. simpl in *. done.
  - apply running_one in Hi as [-> ->].
    simpl in *. by rewrite <- app_assoc.
  - apply running_one in Hi as [-> ->].
    simpl in *. done.
Qed.

Lemma sequential_rtc (todo : list Task) (s : St) w :
  rtc (step call) (initial 1 todo s) w →
  todo = completed w ++ running (workers (pool w))
         ++ tasks (pool w) ++ pending (main w).
Proof.
  intros Hrun.
  apply (rtc_ind_r (R := step call)
           (λ w, rtc (step call) (initial 1 todo s) w
                 ∧ todo = completed w ++ running (workers (pool w))
                          ++ tasks (pool w) ++ pending (main w))
           (initial 1 todo s)); [done| |done].
  intros w1 w2 _ Hstep [Hw1 IH]. split; [by eapply rtc_r|].
  eapply sequential_step; [by apply pool_inv_rtc|done..].
Qed.
End pool_more.

(** X6.  The queue is first in, first out: at every moment of a run the
    tasks are, in the order in which [main] gives them, the ones that
    workers have taken, then the ones in the queue, then the ones that
    [main] has not enqueued yet; and a task that was taken is running or
    has ended, never both and never twice. *)
Theorem tasks_start_in_order {Task St : Type}
    (call : Task → St → St * option runtime_error)
    (n : nat) (todo : list Task) (s : St) (w : World Task St) :
  rtc (step call) (initial n todo s) w →
  ∃ started,
    todo = started ++ tasks (pool w) ++ pending (main w)
    ∧ started ≡ₚ running (workers (pool w)) ++ completed w.
Proof. apply fifo_rtc. Qed.

Lemma tasks_start_in_order_witness :
  tasks (pool (world_of stored 2 demo_chunks mid_run))
  = [{| id := 2; data := [x04] |}]
  ∧ ∃ started,
      demo_chunks
      = started ++ tasks (pool (world_of stored 2 demo_chunks mid_run))
        ++ pending (main (world_of stored 2 demo_chunks mid_run))
      ∧ started
        ≡ₚ running (workers (pool (world_of stored 2 demo_chunks mid_run)))
           ++ completed (world_of stored 2 demo_chunks mid_run).
Proof.
  split; [vm_compute; reflexivity|].
  apply (tasks_start_in_order (compress_task stored) 2 demo_chunks []
           (world_of stored 2 demo_chunks mid_run)).
  apply world_of_run. vm_compute. eauto.
Defined.

(** X7.  With a single worker the pool is sequential: at every moment
    the calls that have ended, the task that is running, the queue and
    the tasks not yet enqueued are, in this order, the tasks as [main]
    gives them.  So when [shutdown] has returned the calls have ended in
    the order of submission, and the shared state is the effect of the
    calls in that order. *)
Theorem single_worker_sequential {Task St : Type}
    (call : Task → St → St * option runtime_error)
    (todo : list Task) (s : St) (w : World Task St) :
  rtc (step call) (initial 1 todo s) w →
  todo = completed w ++ running (workers (pool w))
         ++ tasks (pool w) ++ pending (main w)
  ∧ (main w = After_shutdown →
     completed w = todo ∧ (shared w, log w) = calls call todo (s, [])).
Proof.
  intros Hrun. pose proof (sequential_rtc call todo s w Hrun) as Hseq.
  split; [done|]. intros Hmain.
  destruct (pool_after_shutdown call 1 todo s w) as (_ & Hq & Hr & _ & Hsh);
    [lia|done..|].
  rewrite Hq, Hr, Hmain in Hseq. simpl in Hseq. rewrite app_nil_r in Hseq.
  split; [done|]. by rewrite Hseq at 1.
Qed.

Lemma single_worker_sequential_witness :
  completed (world_of stored 1 demo_chunks one_by_one) = demo_chunks
  ∧ cc_id <$> shared (world_of stored 1 demo_chunks one_by_one)
    = [0; 1; 2]%nat.
Proof.
  split; [|vm_compute; reflexivity].
  apply (single_worker_sequential (compress_task stored) demo_chunks []
           (world_of stored 1 demo_chunks one_by_one)).
  - apply world_of_run. vm_compute. eauto.
  - vm_compute. reflexivity.
Defined.

(** X8.  Once [shutdown] has set [stop], the flag stays set and
    [enqueue] drops what it is given: in every state of a run in which
    [main] is past its [enqueue] loop, [enqueue] leaves the pool as it
    is. *)
Theorem enqueue_after_shutdown {Task St : Type}
    (call : Task → St → St * option runtime_error)
    (n : nat) (todo : list Task) (s : St) (w : World Task St) (task : Task) :
  rtc (step call) (initial n todo s) w →
  (∀ rest, main w ≠ Enqueueing rest) →
  stop (pool w) = true ∧ enqueue task (pool w) = pool w.
Proof.
  intros Hrun Hmain.
  pose proof (inv_stopped _ _ _ _ _ (pool_inv_rtc call n todo s w Hrun)) as Hs.
  assert (Hstop : stop (pool w) = true).
  { destruct (stop (pool w)); [done|].
    destruct (Hs eq_refl) as [rest Hrest]. by destruct (Hmain rest). }
  split; [done|]. unfold enqueue. by rewrite Hstop.
Qed.

Lemma enqueue_after_shutdown_witness :
  stop (pool (world_of stored 2 demo_chunks mid_run)) = true
  ∧ enqueue {| id := 3; data := [x05] |}
      (pool (world_of stored 2 demo_chunks mid_run))
    = pool (world_of stored 2 demo_chunks mid_run).
Proof.
  apply (enqueue_after_shutdown (compress_task stored) 2 demo_chunks []).
  - apply world_of_run. vm_compute. eauto.
  - intros rest. vm_compute. discriminate.
Defined.

(** ** The compressor, whatever the codec does *)

Lemma write_frame_frame (file : list byte) (c : CompressedChunk) :
  ∃ p, write_frame file c = file ++ frame p ∧ Z.of_nat (length p) < 2 ^ 32.
Proof.
  unfold write_frame, uint32_of_size.
  set (len := length (cc_data c)).
  assert (Hm : 0 ≤ Z.of_nat len mod 2 ^ 32 < 2 ^ 32)
    by (apply Z.mod_pos_bound; lia).
  assert (Hle : Z.of_nat len mod 2 ^ 32 ≤ Z.of_nat len)
    by (apply Z.mod_le; lia).
  exists (take (Z.to_nat (Z.of_nat len mod 2 ^ 32)) (cc_data c)).
  unfold frame. rewrite length_take. fold len.
  replace (Z.to_nat (Z.of_nat len mod 2 ^ 32) `min` len)%nat
    with (Z.to_nat (Z.of_nat len mod 2 ^ 32)) by lia.
  rewrite Z2Nat.id by lia. split; [done|lia].
Qed.

Lemma write_frames_frames (cs : list CompressedChunk) :
  ∃ ps, write_frames cs = frames ps
        ∧ Forall (λ p, Z.of_nat (length p) < 2 ^ 32) ps.
Proof.
  unfold write_frames.
  cut (∀ file, ∃ ps, foldl write_frame file cs = file ++ frames ps
                     ∧ Forall (λ p, Z.of_nat (length p) < 2 ^ 32) ps).
  { intros Hcut. apply (Hcut []). }
  induction cs as [|c cs IH]; intros file.
  { exists []. simpl. by rewrite app_nil_r. }
  simpl. destruct (write_frame_frame file c) as (p & -> & Hp).
  destruct (IH (file ++ frame p)) as (ps & -> & Hps).
  exists (p :: ps). split; [|by constructor].
  unfold frames. by rewrite fmap_cons, concat_cons, app_assoc.
Qed.

Lemma frames_parse (z : Zlib) (ps : list (list byte)) :
  Forall (λ p, Z.of_nat (length p) < 2 ^ 32) ps →
  ∃ r, decompress_main z (frames ps) = Some r
       ∧ (cerr r = [] ∨ ∃ e, cerr r = [Error_during_decompression e]).
Proof.
  induction 1 as [|p ps Hp _ (r & Hr & Hcerr)].
  { eexists. split; [reflexivity|by left]. }
  unfold frames. rewrite fmap_cons, concat_cons. fold (frames ps).
  rewrite decompress_main_frame_aux by done.
  destruct (decompressData z p) as [d|e].
  - rewrite Hr. eexists. split; [reflexivity|]. done.
  - eexists. split; [reflexivity|]. right. by eexists.
Qed.

(** X11.  Whatever the codec, the number of workers and the interleaving,
    the file that the compressor writes is a sequence of whole frames:
    the decompressor reads it to its end or to the first payload that the
    codec rejects, and never finds a frame cut short. *)
Theorem container_always_parses (size : nat) (z : Zlib) (n : nat)
    (in_file : list byte) (r : run)
    (ow : option (World Chunk (list CompressedChunk))) :
  compress_with size z n in_file r ow →
  ∃ r', decompress_main z (out_file r) = Some r'
        ∧ (cerr r' = [] ∨ ∃ e, cerr r' = [Error_during_decompression e]).
Proof.
  intros [Hread|chunks w Hread Hne Hsteps Hmain].
  - apply (frames_parse z []). constructor.
  - cbn [out_file run_of].
    destruct (write_frames_frames (std_sort (shared w))) as (ps & -> & Hps).
    by apply frames_parse.
Qed.

Lemma container_always_parses_witness :
  ∃ r', decompress_main picky
          (out_file (run_of (demo_world picky out_of_order))) = Some r'
        ∧ (cerr r' = [] ∨ ∃ e, cerr r' = [Error_during_decompression e]).
Proof.
  apply (container_always_parses 2 picky 2 demo_file
           (run_of (demo_world picky out_of_order))
           (Some (demo_world picky out_of_order))).
  apply demo_compress; vm_compute; eauto.
Defined.

(** X10.  In a run with at least one worker every chunk is accounted
    for.  The entries of [compressed_chunks] are, in some order, the
    compressed chunks of the chunks whose compression succeeds, each of
    them once; the lines on [std::cerr] are, in some order, the
    exceptions of the chunks whose compression fails, each of them once;
    a chunk is of one kind or of the other; and so the entries and the
    lines together are as many as the chunks. *)
Theorem every_chunk_accounted (size : nat) (z : Zlib) (n : nat)
    (in_file : list byte) (chunks : list Chunk) (r : run)
    (w : World Chunk (list CompressedChunk)) :
  (0 < n)%nat →
  read_chunks size in_file = Some chunks →
  compress_with size z n in_file r (Some w) →
  shared w ≡ₚ omap (compressed z) chunks
  ∧ cerr r ≡ₚ Exception_in_worker <$> omap (failure z) chunks
  ∧ (∀ c, c ∈ chunks → is_Some (compressed z c) ↔ failure z c = None)
  ∧ (length (shared w) + length (cerr r) = length chunks)%nat.
Proof.
  intros Hn Hread Hrun.
  destruct (compress_with_inv _ _ _ _ _ _ _ Hread Hrun)
    as (-> & _ & Hids & Hsteps & Hmain).
  destruct (compress_pool_result z n chunks w Hn Hids Hsteps Hmain)
    as (Hshared & Hlog & _).
  cbn [cerr run_of]. split_and!.
  - exact Hshared.
  - by rewrite Hlog.
  - intros c _.
    destruct (compressed_or_failure z c)
      as [(d & _ & -> & ->)|(e & _ & -> & ->)].
    + split; [done|]. intros _. by eexists.
    + split; [by intros [? ?]|done].
  - rewrite length_fmap, Hshared, Hlog. apply omap_length_split.
Qed.

Lemma every_chunk_accounted_witness :
  shared (demo_world picky out_of_order)
  ≡ₚ omap (compressed picky) demo_chunks
  ∧ cerr (run_of (demo_world picky out_of_order))
    ≡ₚ Exception_in_worker <$> omap (failure picky) demo_chunks
  ∧ (∀ c, c ∈ demo_chunks →
          is_Some (compressed picky c) ↔ failure picky c = None)
  ∧ (length (shared (demo_world picky out_of_order))
     + length (cerr (run_of (demo_world picky out_of_order)))
     = length demo_chunks)%nat.
Proof.
  apply (every_chunk_accounted 2 picky 2 demo_file demo_chunks
           (run_of (demo_world picky out_of_order))
           (demo_world picky out_of_order)).
  - lia.
  - apply demo_read.
  - apply demo_compress; vm_compute; eauto.
Defined.



Lemma sorted_weaken (l : list CompressedChunk) :
  StronglySorted by_id l → StronglySorted (λ a b, id_less b a = false) l.
Proof.
  induction 1 as [|x l _ IH Hx]; constructor; [done|].
  eapply Forall_impl; [exact Hx|]. intros y Hy. unfold id_less.
  apply bool_decide_eq_false. unfold by_id in Hy. lia.
Qed.

Lemma any_sort_same_container_witness :
  write_frames (omap (compressed stored) demo_chunks)
  = out_file (run_of (demo_world stored out_of_order)).
Proof.
  apply (any_sort_same_container stored 2 demo_chunks
           (demo_world stored out_of_order)
           (omap (compressed stored) demo_chunks)).
  - lia.
  - reflexivity.
  - apply demo_world_run. vm_compute. eauto.
  - vm_compute. reflexivity.
  - destruct (compress_pool_result stored 2 demo_chunks
                (demo_world stored out_of_order)) as (Hp & _ & _);
      [lia|reflexivity|apply demo_world_run; vm_compute; eauto
      |vm_compute; reflexivity|].
    by symmetry.
  - apply sorted_weaken.
    by destruct (compressed_sorted stored demo_chunks 0 eq_refl) as [Hs _].
Defined.

(** ** The size of the container *)

Lemma frames_cons (p : list byte) (ps : list (list byte)) :
  frames (p :: ps) = frame p ++ frames ps.
Proof. unfold frames. by rewrite fmap_cons, concat_cons. Qed.

Lemma compressed_frames_length (z : Zlib) (chunks : list Chunk) :
  within_capacity z →
  Forall (λ c, data c ≠ [] ∧ (length (data c) ≤ CHUNK_SIZE)%nat) chunks →
  Z.of_nat (length (frames (cc_data <$> omap (compressed z) chunks)))
  ≤ Z.of_nat (length (concat (data <$> chunks)))
    + 337 * Z.of_nat (length chunks)
  ∧ Forall (λ c, Z.of_nat (length (cc_data c)) < 2 ^ 32)
      (omap (compressed z) chunks).
Proof.
  intros Hfit. pose proof CHUNK_SIZE_eq.
  induction 1 as [|c cs [Hne Hlen] _ [IH IHs]]; [split; [simpl; lia|constructor]|].
  rewrite omap_cons_inv, fmap_cons, concat_cons, !length_app.
  destruct (compressed_or_failure z c) as [(d & Hd & -> & _)|(e & _ & -> & _)].
  - pose proof (compressData_length z (data c) d Hfit Hlen Hd) as Hd'.
    change (option_list (Some ?x) ++ ?l) with (x :: l).
    rewrite fmap_cons, frames_cons, length_app. unfold frame at 1.
    rewrite length_app, uint32_bytes_length. cbn [cc_data length].
    split; [lia|]. constructor; [cbn [cc_data]; lia|done].
  - change (option_list None ++ ?l) with l. cbn [length]. split; [lia|done].
Qed.

(** X12.  With a [compress] that stays within its buffer, the container
    is at most 337 bytes per chunk longer than the input: four bytes for
    the length field and what [compressBound] allows above the chunk. *)
Theorem container_size_bound (z : Zlib) (n : nat) (in_file : list byte)
    (chunks : list Chunk) (r : run)
    (ow : option (World Chunk (list CompressedChunk))) :
  within_capacity z →
  read_chunks CHUNK_SIZE in_file = Some chunks →
  compress_main z n in_file r ow →
  Z.of_nat (length (out_file r))
  ≤ Z.of_nat (length in_file) + 337 * Z.of_nat (length chunks).
Proof.
  intros Hfit Hread Hrun. unfold compress_main in Hrun.
  destruct Hrun as [_|chunks' w Hread' Hne Hsteps Hmain]; [simpl; lia|].
  rewrite Hread in Hread'. injection Hread' as <-.
  destruct (read_chunks_Some _ _ _ Hread) as (_ & Hids & Hall & Hcat & _).
  destruct (compressed_frames_length z chunks Hfit Hall) as [Hlen Hsmall].
  rewrite Hcat in Hlen. cbn [out_file run_of].
  destruct n as [|n].
  - destruct (no_workers_nothing_runs _ _ _ _ Hsteps) as (_ & -> & _).
    simpl. lia.
  - destruct (compress_pool_result z (S n) chunks w) as (_ & _ & ->);
      [lia|done..|].
    by rewrite write_frames_small.
Qed.

Lemma container_size_bound_witness :
  Z.of_nat (length (out_file (run_of (world_of stored 1 tiny_chunks one_worker))))
  ≤ Z.of_nat (length tiny_file) + 337 * Z.of_nat (length tiny_chunks).
Proof.
  apply (container_size_bound stored 1 tiny_file tiny_chunks
           (run_of (world_of stored 1 tiny_chunks one_worker))
           (Some (world_of stored 1 tiny_chunks one_worker))).
  - apply stored_within_capacity.
  - apply tiny_read.
  - apply tiny_compress.
Defined.

(** ** What is lost when chunks fail *)

Lemma survivors_roundtrip (z : Zlib) (chunks : list Chunk) :
  within_capacity z → codec_sound z →
  Forall (λ c, data c ≠ [] ∧ (length (data c) ≤ CHUNK_SIZE)%nat) chunks →
  Forall2 (decodes z) (cc_data <$> omap (compressed z) chunks)
    (data <$> survivors z chunks).
Proof.
  intros Hfit Hsound. pose proof CHUNK_SIZE_eq. unfold survivors.
  induction 1 as [|c cs [Hne Hlen] _ IH]; [constructor|].
  rewrite omap_cons_inv.
  destruct (compressed_or_failure z c) as [(d & Hd & Hc & _)|(e & _ & Hc & _)].
  - rewrite filter_cons_True by (rewrite Hc; eauto). rewrite Hc.
    change (option_list (Some ?x) ++ ?l) with (x :: l).
    rewrite !fmap_cons. cbn [cc_data]. constructor; [|done].
    pose proof (compressData_length z (data c) d Hfit Hlen Hd).
    rewrite compressData_cons in Hd by done.
    remember (compress z (data c) (compressBound (Z.of_nat (length (data c)))))
      as res eqn:Hres.
    destruct res as [d'|]; [|discriminate]. injection Hd as ->.
    destruct (Hsound (data c) d Hne Hlen (eq_sym Hres)) as [Hdne Hu].
    split; [lia|]. rewrite decompressData_cons by done. by rewrite Hu.
  - rewrite filter_cons_False by (rewrite Hc; by intros [? ?]). rewrite Hc.
    done.
Qed.

(** X13.  With at least one worker and a codec that stays within its
    buffer and inflates correctly whatever it has deflated, the
    decompressor turns the compressor's output into the input without
    the chunks whose compression failed, and returns 0: a failed chunk
    is a hole of up to [CHUNK_SIZE] bytes that nothing reports when the
    file is read back. *)
Theorem lossy_round_trip (z : Zlib) (n : nat) (in_file : list byte)
    (chunks : list Chunk) (r : run)
    (ow : option (World Chunk (list CompressedChunk))) :
  (0 < n)%nat → within_capacity z → codec_sound z →
  read_chunks CHUNK_SIZE in_file = Some chunks →
  compress_main z n in_file r ow →
  decompress_main z (out_file r)
  = Some {| exit_code := 0;
            out_file := concat (data <$> survivors z chunks);
            cerr := [] |}.
Proof.
  intros Hn Hfit Hsound Hread Hrun. unfold compress_main in Hrun.
  destruct Hrun as [Hread'|chunks' w Hread' Hne Hsteps Hmain].
  - rewrite Hread in Hread'. by injection Hread' as ->.
  - rewrite Hread in Hread'. injection Hread' as <-.
    destruct (read_chunks_Some _ _ _ Hread) as (_ & Hids & Hall & _).
    destruct (compress_pool_result z n chunks w Hn Hids Hsteps Hmain)
      as (_ & _ & Hsort).
    pose proof (survivors_roundtrip z chunks Hfit Hsound Hall) as Hdec.
    cbn [out_file run_of]. rewrite Hsort, write_frames_small.
    + rewrite <- (app_nil_r (frames _)).
      destruct (decompress_main_frames z _ _ [] Hdec) as (fuel & -> & _).
      apply decompress_loop_end.
    + pose proof (proj1 (Forall2_fmap_l _ _ _ _) Hdec) as Hdec'.
      eapply Forall2_Forall_l; [exact Hdec'|].
      apply Forall_true. intros p d' [Hp _]. exact Hp.
Qed.

Lemma picky_within_capacity : within_capacity picky.
Proof.
  intros src destLen out. cbn [compress picky]. unfold picky_compress.
  intros Hc. apply (stored_within_capacity src destLen out).
  cbn [compress stored]. by destruct src as [|[] src].
Qed.

Lemma picky_sound : codec_sound picky.
Proof.
  intros x c Hx Hlen Hc. pose proof CHUNK_SIZE_eq.
  cbn [compress uncompress picky] in *. unfold picky_compress in Hc.
  assert (Hs : stored_compress x (compressBound (Z.of_nat (length x))) = Z_OK c)
    by (by destruct x as [|[] x]).
  unfold stored_compress in Hs. case_decide; [|done]. injection Hs as <-.
  split; [done|]. unfold stored_uncompress. rewrite decide_True by lia. done.
Qed.

Lemma refused_read : read_chunks CHUNK_SIZE refused_file = Some refused_chunks.
Proof. vm_compute. reflexivity. Qed.

Lemma lossy_round_trip_witness :
  survivors picky refused_chunks = []
  ∧ decompress_main picky
      (out_file (run_of (world_of picky 1 refused_chunks one_worker)))
    = Some {| exit_code := 0;
              out_file := concat (data <$> survivors picky refused_chunks);
              cerr := [] |}.
Proof.
  split; [vm_compute; reflexivity|].
  apply (lossy_round_trip picky 1 refused_file refused_chunks
           (run_of (world_of picky 1 refused_chunks one_worker))
           (Some (world_of picky 1 refused_chunks one_worker))).
  - lia.
  - apply picky_within_capacity.
  - apply picky_sound.
  - apply refused_read.
  - apply (compress_chunks CHUNK_SIZE picky 1 refused_file refused_chunks).
    + apply refused_read.
    + discriminate.
    + apply world_of_run. vm_compute. eauto.
    + vm_compute. reflexivity.
Defined.

(** ** How much the decompressor can write *)

Lemma decompressData_length (z : Zlib) (c d : list byte) :
  uncompress_within_capacity z →
  decompressData z c = Return d →
  Z.of_nat (length d) ≤ Z.of_nat CHUNK_SIZE.
Proof.
  intros Hfit Hd. destruct c as [|b c].
  { injection Hd as <-. simpl. lia. }
  rewrite decompressData_cons in Hd by done.
  remember (uncompress z (b :: c) (Z.of_nat CHUNK_SIZE)) as res eqn:Hres.
  destruct res as [d'|]; [|discriminate]. injection Hd as ->.
  by apply (Hfit (b :: c)).
Qed.

Lemma decompress_loop_bound (z : Zlib) (fuel : nat) :
  uncompress_within_capacity z →
  ∀ (l acc : list byte) (g : nat) (r : run),
    decompress_loop z fuel (fresh_stream l g) acc = Some r →
    4 * Z.of_nat (length (out_file r))
    ≤ 4 * Z.of_nat (length acc) + Z.of_nat CHUNK_SIZE * Z.of_nat (length l).
Proof.
  intros Hfit. pose proof CHUNK_SIZE_eq as Hcs.
  induction fuel as [|fuel IH]; intros l acc g r Hr; [done|].
  destruct l as [|b l].
  { injection Hr as <-. simpl. lia. }
  cbn [decompress_loop] in Hr. rewrite istream_peek_fresh in Hr.
  destruct (decide (4 ≤ length (b :: l))%nat) as [H4|H4].
  - rewrite istream_read_enough in Hr by done. cbn [fresh_stream gcount] in Hr.
    rewrite decide_False in Hr by lia.
    set (n := Z.to_nat (uint32_value (take 4 (b :: l)))) in *.
    destruct (decide (n ≤ length (drop 4 (b :: l)))%nat) as [Hn|Hn].
    + rewrite istream_read_enough in Hr by (done || apply length_replicate).
      cbn [fresh_stream gcount] in Hr.
      destruct (decide _); [injection Hr as <-; simpl; lia|].
      destruct (decompressData z _) as [d|e] eqn:Hd;
        [|injection Hr as <-; simpl; lia].
      apply IH in Hr. apply decompressData_length in Hd; [|done].
      rewrite length_app, !length_drop in Hr.
      rewrite length_drop in Hn. nia.
    + rewrite istream_read_short in Hr by lia. cbn [ended_stream gcount] in Hr.
      destruct (decide _) as [|Heq]; [injection Hr as <-; simpl; lia|].
      exfalso. apply Hn. unfold n. lia.
  - rewrite istream_read_short in Hr by lia.
    cbn [ended_stream gcount eof eofbit] in Hr.
    rewrite decide_True in Hr by lia. injection Hr as <-. simpl. lia.
Qed.

(** X14.  With an [uncompress] that stays within its buffer, the
    decompressor writes at most [CHUNK_SIZE] bytes for every four bytes
    of its input: a frame costs at least its length field and gives at
    most one chunk. *)
Theorem decompress_output_bound (z : Zlib) (in_file : list byte) (r : run) :
  uncompress_within_capacity z →
  decompress_main z in_file = Some r →
  4 * Z.of_nat (length (out_file r))
  ≤ Z.of_nat CHUNK_SIZE * Z.of_nat (length in_file).
Proof.
  intros Hfit Hr.
  apply (decompress_loop_bound z _ Hfit in_file [] 0%nat r) in Hr.
  simpl in Hr. lia.
Qed.

Lemma stored_uncompress_within : uncompress_within_capacity stored.
Proof.
  intros src destLen out. cbn [uncompress stored]. unfold stored_uncompress.
  destruct src as [|[] src]; try done. case_decide; [|done]. by intros [= <-].
Qed.

Lemma decompress_output_bound_witness :
  decompress_main stored (frame [x78; x01]) = Some (done_run 0 [x01] [])
  ∧ 4 * Z.of_nat (length (out_file (done_run 0 [x01] [])))
    ≤ Z.of_nat CHUNK_SIZE * Z.of_nat (length (frame [x78; x01])).
Proof.
  assert (H : decompress_main stored (frame [x78; x01])
              = Some (done_run 0 [x01] [])) by (vm_compute; reflexivity).
  split; [exact H|].
  exact (decompress_output_bound stored (frame [x78; x01])
           (done_run 0 [x01] []) stored_uncompress_within H).
Defined.

(** ** Where the bytes of a chunk come from *)

Lemma concat_chunk_at (C : nat) (cs : list Chunk) (rest : list byte) :
  Forall (λ c, length (data c) = C) cs →
  ∀ i c, cs !! i = Some c →
         take C (drop (i * C) (concat (data <$> cs) ++ rest)) = data c.
Proof.
  induction 1 as [|x cs Hx _ IH]; intros i c Hi; [done|].
  rewrite fmap_cons, concat_cons, <- app_assoc.
  destruct i as [|i]; simpl in Hi.
  - injection Hi as <-. change (0 * C)%nat with 0%nat. rewrite drop_0.
    by apply take_app_length'.
  - replace (S i * C)%nat with (length (data x) + i * C)%nat by lia.
    rewrite drop_app_add. by apply IH.
Qed.

(** X15.  The chunk with sequence number [i] holds the bytes of the
    input from offset [i * C] on, [C] of them or as many as are left. *)
Theorem chunk_contents (C : nat) (input : list byte) (chunks : list Chunk)
    (i : nat) (c : Chunk) :
  read_chunks C input = Some chunks →
  chunks !! i = Some c →
  id c = i ∧ data c = take C (drop (i * C) input).
Proof.
  intros Hread Hi.
  destruct (read_chunks_Some _ _ _ Hread) as (HC & _).
  destruct (read_chunks_spec C input HC)
    as (fulls & rest & Hrun & Hcat & Hrest & Hfull & Hid).
  rewrite Hread in Hrun. injection Hrun as ->.
  apply lookup_app_Some in Hi as [Hi|[Hge Hi]].
  - split; [by apply Hid|]. rewrite Hcat. symmetry.
    by apply concat_chunk_at.
  - destruct (decide (rest = [])) as [->|Hne]; [done|].
    apply list_lookup_singleton_Some in Hi as [Hi <-]. cbn [id data].
    assert (i = length fulls) as -> by lia. split; [done|].
    rewrite Hcat at 1. rewrite Nat.mul_comm.
    rewrite <- (length_concat_uniform C fulls Hfull), drop_app_length.
    rewrite take_ge; [done|lia].
Qed.

Lemma chunk_contents_witness :
  id {| id := 1; data := [xff; x03] |} = 1%nat
  ∧ data {| id := 1; data := [xff; x03] |}
    = take 2 (drop (1 * 2) demo_file).
Proof.
  apply (chunk_contents 2 demo_file demo_chunks 1
           {| id := 1; data := [xff; x03] |}).
  - apply demo_read.
  - reflexivity.
Defined.

(** ** The thread pool, with its mutex and its condition variable *)

Section cv_facts.
Context {Task St : Type} (call : Task → St → St * option runtime_error).
Implicit Types (w : CvWorld Task St) (ws : list (cv_worker Task)).

Lemma sum_list_with_insert {A : Type} (f : A → nat) (l : list A) (i : nat)
    (x y : A) :
  l !! i = Some x →
  (sum_list_with f (<[i:=y]> l) + f x = sum_list_with f l + f y)%nat.
Proof.
  intros Hi. rewrite <- (take_drop_middle l i x Hi) at 2.
  rewrite insert_take_drop by (by eapply lookup_lt_Some).
  rewrite !sum_list_with_app. simpl. lia.
Qed.

Lemma asleep_none ws :
  existsb asleep ws = false ↔ Forall (λ x, asleep x = false) ws.
Proof.
  induction ws as [|x ws IH]; simpl; [by split|].
  rewrite Forall_cons, <- IH. destruct (asleep x); simpl.
  - split; [done|]. by intros [? _].
  - split; [by intros ->|]. by intros [_ ->].
Qed.

Lemma asleep_some ws :
  existsb asleep ws = true → ∃ i, ws !! i = Some Asleep.
Proof.
  induction ws as [|x ws IH]; simpl; [done|].
  destruct x; simpl; try (intros H; destruct (IH H) as [i Hi]; by exists (S i)).
  intros _. by exists 0%nat.
Qed.

Lemma asleep_insert ws i (x : cv_worker Task) :
  existsb asleep ws = false → asleep x = false →
  existsb asleep (<[i:=x]> ws) = false.
Proof.
  rewrite !asleep_none. intros Hws Hx.
  destruct (decide (i < length ws)%nat).
  - by apply Forall_insert.
  - by rewrite list_insert_ge by lia.
Qed.

Lemma asleep_wake ws : existsb asleep (wake <$> ws) = false.
Proof. induction ws as [|[] ws IH]; csimpl; done. Qed.

Lemma holding_some ws :
  (0 < sum_list_with holding ws)%nat → ∃ i, ws !! i = Some Testing.
Proof.
  induction ws as [|x ws IH]; simpl; [lia|].
  destruct x; simpl;
    try (intros H; destruct (IH H) as [i Hi]; by exists (S i)).
  intros _. by exists 0%nat.
Qed.

Lemma holding_wake ws :
  sum_list_with holding (wake <$> ws) = sum_list_with holding ws.
Proof. induction ws as [|[] ws IH]; csimpl; lia. Qed.


(** The function [cv_next] and the relation [cv_step] are the same
    steps. *)
Lemma cv_next_step c w w' :
  cv_next call c w = Some w' → cv_step call (kind_of c) w w'.
Proof.
  intros H. destruct c as [i|i|i]; simpl in *.
  - destruct (cv_main w) as [[|task todo]|task todo|todo| | |k|] eqn:Hm.
    + destruct (cv_stop w) eqn:Hs; [simplify_eq; by constructor|].
      destruct (queue_mutex w) eqn:Hq; [done|]. simplify_eq. by constructor.
    + destruct (queue_mutex w) eqn:Hq; [done|]. simplify_eq.
      by apply cv_enqueue_lock.
    + destruct (cv_stop w) eqn:Hs; simplify_eq.
      * eapply cv_enqueue_stopped; eauto.
      * by apply cv_enqueue_push.
    + destruct (cv_workers w !! i) as [[]|] eqn:Hi;
        try (destruct (existsb asleep (cv_workers w)) eqn:He; [done|];
             simplify_eq; by apply cv_notify_none).
      simplify_eq. by apply cv_notify_one.
    + simplify_eq. by apply cv_shutdown_stop.
    + simplify_eq. by apply cv_notify_all.
    + destruct (decide (k = length (cv_workers w))) as [->|Hk].
      * simplify_eq. by apply cv_joined.
      * destruct (cv_workers w !! k) as [[]|] eqn:Hi; try done.
        simplify_eq. by apply cv_join.
    + done.
  - destruct (cv_workers w !! i) as [[| | | |task|]|] eqn:Hi; try done.
    + destruct (queue_mutex w) eqn:Hq; [done|]. simplify_eq.
      by apply cv_lock.
    + destruct (cv_tasks w) as [|task q] eqn:Ht.
      * destruct (cv_stop w) eqn:Hs; simplify_eq.
        -- by apply cv_return.
        -- by apply cv_sleep.
      * simplify_eq. by apply cv_pop.
    + destruct (queue_mutex w) eqn:Hq; [done|]. simplify_eq.
      by apply cv_relock.
    + simplify_eq. by apply cv_call.
  - destruct (cv_workers w !! i) as [[]|] eqn:Hi; try done.
    simplify_eq. by apply cv_spurious.
Qed.

Lemma cv_step_next kind w w' :
  cv_step call kind w w' →
  ∃ c, cv_next call c w = Some w' ∧ kind_of c = kind.
Proof.
  destruct 1 as [w i Hi Hq|w i Hi Hq|w i Hi Hs Ht|w i task q Hi Ht
                |w i Hi Hs Ht|w i task Hi|w i Hi
                |w task todo Hm Hq|w task todo Hm Hs|w task todo Hm Hs
                |w todo i Hm Hi|w todo Hm He|w Hm Hs|w Hm Hs Hq|w Hm|w Hm
                |w k Hm Hk|w Hm].
  - exists (Cv_worker i). simpl. by rewrite Hi, Hq.
  - exists (Cv_worker i). simpl. by rewrite Hi, Hq.
  - exists (Cv_worker i). simpl. by rewrite Hi, Ht, Hs.
  - exists (Cv_worker i). simpl. by rewrite Hi, Ht.
  - exists (Cv_worker i). simpl. by rewrite Hi, Ht, Hs.
  - exists (Cv_worker i). simpl. by rewrite Hi.
  - exists (Cv_spurious i). simpl. by rewrite Hi.
  - exists (Cv_main 0). simpl. by rewrite Hm, Hq.
  - exists (Cv_main 0). simpl. by rewrite Hm, Hs.
  - exists (Cv_main 0). simpl. by rewrite Hm, Hs.
  - exists (Cv_main i). simpl. by rewrite Hm, Hi.
  - exists (Cv_main 0). simpl. rewrite Hm, He.
    destruct (cv_workers w !! 0%nat) as [[]|] eqn:H0; try done.
    apply asleep_none in He. rewrite Forall_forall in He.
    apply list_elem_of_lookup_2 in H0. by apply He in H0.
  - exists (Cv_main 0). simpl. by rewrite Hm, Hs.
  - exists (Cv_main 0). simpl. by rewrite Hm, Hs, Hq.
  - exists (Cv_main 0). simpl. by rewrite Hm.
  - exists (Cv_main 0). simpl. by rewrite Hm.
  - exists (Cv_main 0). simpl. rewrite Hm.
    rewrite decide_False; [by rewrite Hk|].
    apply lookup_lt_Some in Hk. lia.
  - exists (Cv_main 0). simpl. rewrite Hm. by rewrite decide_True.
Qed.

Lemma cv_schedule_None cs :
  foldl (λ ow c, ow ≫= cv_next call c) None cs = None.
Proof. induction cs; simpl; auto. Qed.

Lemma cv_schedule_run cs w w' :
  cv_schedule call cs w = Some w' →
  cv_run call (length (filter (λ c, spurious c = false) cs))
    (length (filter (λ c, spurious c = true) cs)) w w'.
Proof.
  unfold cv_schedule. revert w. induction cs as [|c cs IH]; intros w Hrun.
  - simpl in Hrun. simplify_eq. constructor.
  - simpl in Hrun. destruct (cv_next call c w) as [w1|] eqn:Hn; simpl in Hrun.
    + apply cv_next_step in Hn. apply IH in Hrun.
      destruct c as [i|i|i]; simpl in Hn.
      * rewrite filter_cons_True, filter_cons_False by done.
        by eapply cv_run_code.
      * rewrite filter_cons_True, filter_cons_False by done.
        by eapply cv_run_code.
      * rewrite filter_cons_False, filter_cons_True by done.
        by eapply cv_run_spurious.
    + by rewrite cv_schedule_None in Hrun.
Qed.

Lemma cv_run_rtc k s w w' : cv_run call k s w w' → rtc (cv_any call) w w'.
Proof.
  induction 1 as [|k s w w1 w' Hstep _ IH|k s w w1 w' Hstep _ IH];
    [done| |]; (eapply rtc_l; [by eexists|done]).
Qed.

(** The invariant. *)
Lemma cv_inv_initial (n : nat) (todo : list Task) (s : St) :
  cv_inv n (cv_initial n todo s).
Proof.
  split; simpl.
  - apply length_replicate.
  - unfold holders. simpl. induction n as [|n IH]; [done|]. simpl. lia.
  - done.
  - done.
  - done.
Qed.

Lemma past_notify_all_stop (m : cv_main_thread Task) :
  past_notify_all m = true → past_stop m = true.
Proof. by destruct m. Qed.

Lemma cv_inv_step (n : nat) kind w w' :
  cv_inv n w → cv_step call kind w w' → cv_inv n w'.
Proof.
  intros [Hn Hmx Hst Haw Hj] Hstep.
  pose proof (past_notify_all_stop (cv_main w)) as Hpast.
  destruct Hstep as [w i Hi Hq|w i Hi Hq|w i Hi Hs Ht|w i task q Hi Ht
                |w i Hi Hs Ht|w i task Hi|w i Hi
                |w task todo Hm Hq|w task todo Hm Hs|w task todo Hm Hs
                |w todo i Hm Hi|w todo Hm He|w Hm Hs|w Hm Hs Hq|w Hm|w Hm
                |w k Hm Hk|w Hm];
    split; simpl; unfold holders in *; simpl.
  all: try (rewrite ?length_insert, ?length_fmap; exact Hn).
  all: try exact Hst.
  all: try exact Hj.
  all: rewrite ?Hm in *; simpl in *.
  all: try done.
  all: try congruence.
  all: try (intros Hp; apply asleep_insert; [by apply Haw|done]).
  all: try (intros _; apply asleep_wake).
  all: try (intros k' Hk'; simplify_eq; apply lookup_lt_Some in Hk; lia).
  all: try (intros k' Hk'; simplify_eq; lia).
  all: try (rewrite holding_wake; exact Hmx).
  all: try (intros Hp; specialize (Hpast Hp); congruence).
  all: try (pose proof (sum_list_with_insert holding _ _ _ Testing Hi));
       try (pose proof (sum_list_with_insert holding _ _ _ Asleep Hi));
       try (pose proof (sum_list_with_insert holding _ _ _ Woken Hi));
       try (pose proof (sum_list_with_insert holding _ _ _ Returned Hi));
       try (pose proof (sum_list_with_insert holding _ _ _ Locking Hi)).
  all: try (pose proof (sum_list_with_insert holding _ _ _ (Calling task) Hi)).
  all: rewrite ?Hq in *; simpl in *.
  all: try (destruct (queue_mutex w); simpl in *; lia).
Qed.

Lemma cv_inv_rtc (n : nat) (todo : list Task) (s : St) w :
  rtc (cv_any call) (cv_initial n todo s) w → cv_inv n w.
Proof.
  revert w.
  apply (rtc_ind_r (R := cv_any call) (cv_inv n) (cv_initial n todo s)).
  - apply cv_inv_initial.
  - intros w w' _ [kind Hstep] IH. by eapply cv_inv_step.
Qed.

(** A worker that holds the mutex can go on. *)
Lemma testing_moves w i :
  cv_workers w !! i = Some Testing → ∃ w', cv_step call Of_the_code w w'.
Proof.
  intros Hi. destruct (cv_tasks w) as [|task q] eqn:Ht.
  - destruct (cv_stop w) eqn:Hs; eexists.
    + by apply (cv_return call w i).
    + by apply (cv_sleep call w i).
  - eexists. by apply (cv_pop call w i task q).
Qed.

(** When the mutex is held, the thread that holds it can go on. *)
Lemma holder_moves (n : nat) w :
  cv_inv n w → queue_mutex w = true → ∃ w', cv_step call Of_the_code w w'.
Proof.
  intros Hinv Hq. pose proof (cv_inv_mutex _ _ Hinv) as Hmx.
  rewrite Hq in Hmx. unfold holders in Hmx.
  destruct (cv_main w) as [todo|task todo|todo| | |k|] eqn:Hm; simpl in Hmx;
    try (destruct (holding_some (cv_workers w)) as [i Hi]; [lia|];
         by apply (testing_moves w i)).
  - destruct (cv_stop w) eqn:Hs; eexists.
    + by apply (cv_enqueue_stopped call w task todo).
    + by apply (cv_enqueue_push call w task todo).
  - eexists. by apply cv_shutdown_stop.
Qed.

(** Some thread can take a step of the code, as long as [shutdown] has
    not returned. *)
Lemma cv_progress (n : nat) w :
  cv_inv n w → cv_main w ≠ Shutdown_done →
  ∃ w', cv_step call Of_the_code w w'.
Proof.
  intros Hinv Hmain.
  destruct (queue_mutex w) eqn:Hq; [by apply (holder_moves n)|].
  destruct (cv_main w) as [[|task todo]|task todo|todo| | |k|] eqn:Hm;
    [| | | | | | |done].
  - destruct (cv_stop w) eqn:Hs; eexists.
    + by apply cv_shutdown_again.
    + by apply cv_shutdown_lock.
  - eexists. by apply (cv_enqueue_lock call w task todo).
  - destruct (cv_stop w) eqn:Hs; eexists.
    + by apply (cv_enqueue_stopped call w task todo).
    + by apply (cv_enqueue_push call w task todo).
  - destruct (existsb asleep (cv_workers w)) eqn:He.
    + destruct (asleep_some _ He) as [i Hi]. eexists.
      by apply (cv_notify_one call w todo i).
    + eexists. by apply (cv_notify_none call w todo).
  - eexists. by apply cv_shutdown_stop.
  - eexists. by apply cv_notify_all.
  - pose proof (cv_inv_join _ _ Hinv k Hm) as Hk.
    pose proof (cv_inv_workers _ _ Hinv) as Hn.
    destruct (decide (k = n)) as [->|Hne].
    { eexists. apply cv_joined. by rewrite Hn. }
    destruct (lookup_lt_is_Some_2 (cv_workers w) k) as [x Hx]; [lia|].
    destruct x as [| | | |task|].
    + eexists. by apply (cv_lock call w k).
    + by apply (testing_moves w k).
    + pose proof (cv_inv_awake _ _ Hinv) as Haw. rewrite Hm in Haw.
      specialize (Haw eq_refl). apply asleep_none in Haw.
      rewrite Forall_forall in Haw.
      apply list_elem_of_lookup_2 in Hx. by apply Haw in Hx.
    + eexists. by apply (cv_relock call w k).
    + eexists. by apply (cv_call call w k task).
    + eexists. by apply (cv_join call w k).
Qed.






(** The pool above has every run of this pool: a step here is a step
    there, or no step at all. *)
Lemma coarse_worker_insert ws i (x y : cv_worker Task) :
  ws !! i = Some x → coarse_worker x = coarse_worker y →
  coarse_worker <$> <[i:=y]> ws = coarse_worker <$> ws.
Proof.
  intros Hi Hxy. rewrite list_fmap_insert, <- Hxy.
  apply list_insert_id. by rewrite list_lookup_fmap, Hi.
Qed.

Lemma coarse_wake ws : coarse_worker <$> (wake <$> ws) = coarse_worker <$> ws.
Proof. induction ws as [|[] ws IH]; csimpl; by rewrite ?IH. Qed.

Lemma coarse_step (n : nat) kind w w' :
  cv_inv n w → cv_step call kind w w' →
  coarse w' = coarse w ∨ step call (coarse w) (coarse w').
Proof.
  intros Hinv Hstep. pose proof (cv_inv_stop _ _ Hinv) as Hst.
  destruct Hstep as [w i Hi Hq|w i Hi Hq|w i Hi Hs Ht|w i task q Hi Ht
                |w i Hi Hs Ht|w i task Hi|w i Hi
                |w task todo Hm Hq|w task todo Hm Hs|w task todo Hm Hs
                |w todo i Hm Hi|w todo Hm He|w Hm Hs|w Hm Hs Hq|w Hm|w Hm
                |w k Hm Hk|w Hm].
  - left. unfold coarse. simpl. by rewrite (coarse_worker_insert _ _ Locking).
  - left. unfold coarse. simpl. by rewrite (coarse_worker_insert _ _ Woken).
  - left. unfold coarse. simpl. by rewrite (coarse_worker_insert _ _ Testing).
  - right. unfold coarse at 2. simpl. rewrite list_fmap_insert.
    apply (step_pop call (coarse w) i task q); simpl; [|done].
    by rewrite list_lookup_fmap, Hi.
  - right. unfold coarse at 2. simpl. rewrite list_fmap_insert.
    apply (step_return call (coarse w) i); simpl; [|done|done].
    by rewrite list_lookup_fmap, Hi.
  - right. unfold coarse at 2. simpl. rewrite list_fmap_insert.
    apply (step_call call (coarse w) i task); simpl.
    by rewrite list_lookup_fmap, Hi.
  - left. unfold coarse. simpl. by rewrite (coarse_worker_insert _ _ Asleep).
  - left. unfold coarse. simpl. by rewrite Hm.
  - right.
    replace (coarse (cv_with_main _ _))
      with (with_main (Enqueueing todo)
              (with_pool (enqueue task (pool (coarse w))) (coarse w))).
    + apply step_enqueue. simpl. by rewrite Hm.
    + unfold coarse, enqueue, with_main, with_pool. simpl. by rewrite Hs.
  - right.
    replace (coarse (cv_with_main _ _))
      with (with_main (Enqueueing todo)
              (with_pool (enqueue task (pool (coarse w))) (coarse w))).
    + apply step_enqueue. simpl. by rewrite Hm.
    + unfold coarse, enqueue, with_main, with_pool. simpl. by rewrite Hs.
  - left. unfold coarse. simpl.
    by rewrite (coarse_worker_insert _ _ Asleep), Hm.
  - left. unfold coarse. simpl. by rewrite Hm.
  - right. apply (step_shutdown_again call (coarse w)); simpl; [|done].
    by rewrite Hm.
  - left. unfold coarse. simpl. by rewrite Hm.
  - right. rewrite Hm in Hst. simpl in Hst.
    apply (step_shutdown call (coarse w)); simpl; [|done]. by rewrite Hm.
  - left. unfold coarse. simpl. by rewrite coarse_wake, Hm.
  - right. apply (step_join call (coarse w) k); simpl; [by rewrite Hm|].
    by rewrite list_lookup_fmap, Hk.
  - right. apply (step_joined call (coarse w)). simpl.
    by rewrite length_fmap, Hm.
Qed.

Lemma coarse_rtc (n : nat) (todo : list Task) (s : St) w :
  rtc (cv_any call) (cv_initial n todo s) w →
  rtc (step call) (initial n todo s) (coarse w).
Proof.
  revert w.
  apply (rtc_ind_r (R := cv_any call)
           (λ w, rtc (step call) (initial n todo s) (coarse w))
           (cv_initial n todo s)).
  - unfold coarse, initial, ThreadPool_new. simpl.
    by rewrite fmap_replicate.
  - intros w w' Hrun [kind Hstep] IH.
    destruct (coarse_step n kind w w' (cv_inv_rtc n todo s w Hrun) Hstep)
      as [->|Hc]; [done|].
    by eapply rtc_r.
Qed.
End cv_facts.

Lemma cv_world_of_run (z : Zlib) (n : nat) (chunks : list Chunk)
    (cs : list cv_choice) :
  is_Some (cv_schedule (compress_task z) cs (cv_initial n chunks [])) →
  cv_run (compress_task z)
    (length (filter (λ c, spurious c = false) cs))
    (length (filter (λ c, spurious c = true) cs))
    (cv_initial n chunks []) (cv_world_of z n chunks cs).
Proof.
  intros [w Hw]. apply cv_schedule_run. unfold cv_world_of. by rewrite Hw.
Qed.

Lemma tiny_until_join_run :
  cv_run (compress_task stored) 15 1 (cv_initial 1 tiny_chunks [])
    (cv_world_of stored 1 tiny_chunks tiny_until_join).
Proof.
  apply (cv_world_of_run stored 1 tiny_chunks tiny_until_join).
  vm_compute. eauto.
Qed.

Lemma tiny_schedule_run :
  cv_run (compress_task stored) 19 1 (cv_initial 1 tiny_chunks [])
    (cv_world_of stored 1 tiny_chunks tiny_schedule).
Proof.
  apply (cv_world_of_run stored 1 tiny_chunks tiny_schedule).
  vm_compute. eauto.
Qed.

(** X4.  The pool does not deadlock, with its mutex and its condition
    variable spelled out.  In every state that a run reaches before
    [shutdown] has returned, some thread can take a step of the code: no
    progress depends on a spurious wake-up.  And while the main thread is
    in the [join] loop no worker is blocked in [condition.wait]:
    [notify_all] has unblocked the workers that slept, and [stop] keeps
    the others from going to sleep. *)
Theorem pool_never_stuck {Task St : Type}
    (call : Task → St → St * option runtime_error)
    (n : nat) (todo : list Task) (s : St) (k sp : nat) (w : CvWorld Task St) :
  cv_run call k sp (cv_initial n todo s) w →
  (cv_main w ≠ Shutdown_done → ∃ w', cv_step call Of_the_code w w')
  ∧ (∀ j, cv_main w = At_join j → ∀ i, cv_workers w !! i ≠ Some Asleep).
Proof.
  intros Hrun.
  pose proof (cv_inv_rtc call n todo s w (cv_run_rtc call _ _ _ _ Hrun))
    as Hinv.
  split; [by apply (cv_progress call n)|].
  intros j Hj i Hi. pose proof (cv_inv_awake _ _ Hinv) as Haw.
  rewrite Hj in Haw. specialize (Haw eq_refl).
  apply asleep_none in Haw. rewrite Forall_forall in Haw.
  apply list_elem_of_lookup_2 in Hi. by apply Haw in Hi.
Qed.

Lemma pool_never_stuck_witness :
  cv_main (cv_world_of stored 1 tiny_chunks tiny_until_join) = At_join 0
  ∧ cv_workers (cv_world_of stored 1 tiny_chunks tiny_until_join) = [Woken]
  ∧ (cv_main (cv_world_of stored 1 tiny_chunks tiny_until_join)
     ≠ Shutdown_done →
     ∃ w', cv_step (compress_task stored) Of_the_code
             (cv_world_of stored 1 tiny_chunks tiny_until_join) w')
  ∧ (∀ j, cv_main (cv_world_of stored 1 tiny_chunks tiny_until_join)
          = At_join j →
          ∀ i, cv_workers (cv_world_of stored 1 tiny_chunks tiny_until_join)
               !! i ≠ Some Asleep).
Proof.
  split; [vm_compute; reflexivity|]. split; [vm_compute; reflexivity|].
  apply (pool_never_stuck (compress_task stored) 1 tiny_chunks [] 15 1
           (cv_world_of stored 1 tiny_chunks tiny_until_join)).
  apply tiny_until_join_run.
Defined.



(** X21.  The barrier of [shutdown], with the mutex and the condition
    variable spelled out.  In every run of a pool of [n > 0] workers,
    with or without spurious wake-ups, when [shutdown] has returned the
    calls that have ended are the tasks that were enqueued, the queue is
    empty, every worker has left [worker_thread], the mutex is free, and
    the shared state is the effect of all those calls. *)
Theorem shutdown_barrier_with_condition {Task St : Type}
    (call : Task → St → St * option runtime_error)
    (n : nat) (todo : list Task) (s : St) (k sp : nat) (w : CvWorld Task St) :
  (0 < n)%nat →
  cv_run call k sp (cv_initial n todo s) w →
  cv_main w = Shutdown_done →
  cv_completed w ≡ₚ todo
  ∧ cv_tasks w = []
  ∧ Forall (λ x, x = Returned) (cv_workers w)
  ∧ queue_mutex w = false
  ∧ (cv_shared w, cv_log w) = calls call (cv_completed w) (s, []).
Proof.
  intros Hn Hrun Hmain.
  pose proof (cv_run_rtc call _ _ _ _ Hrun) as Hrtc.
  pose proof (cv_inv_rtc call n todo s w Hrtc) as Hinv.
  pose proof (coarse_rtc call n todo s w Hrtc) as Hcoarse.
  destruct (pool_after_shutdown call n todo s (coarse w) Hn Hcoarse)
    as (Hperm & Htasks & _ & Hfin & Hshared).
  { simpl. by rewrite Hmain. }
  simpl in Hperm, Htasks, Hfin, Hshared.
  assert (Hret : Forall (λ x, x = Returned) (cv_workers w)).
  { apply Forall_fmap in Hfin. eapply Forall_impl; [exact Hfin|].
    intros [] Hx; simpl in Hx; done. }
  split_and!; try done.
  pose proof (cv_inv_mutex _ _ Hinv) as Hmx. unfold holders in Hmx.
  rewrite Hmain in Hmx. simpl in Hmx.
  assert (sum_list_with holding (cv_workers w) = 0%nat) as Hz.
  { clear -Hret. induction Hret as [|x ws -> _ IH]; [done|]. simpl. lia. }
  rewrite Hz in Hmx. by destruct (queue_mutex w).
Qed.

Lemma shutdown_barrier_with_condition_witness :
  cv_shared (cv_world_of stored 1 tiny_chunks tiny_schedule)
  = [{| cc_id := 0; cc_data := [x78; x01; x02; x03] |}]
  ∧ cv_completed (cv_world_of stored 1 tiny_chunks tiny_schedule)
    ≡ₚ tiny_chunks
  ∧ cv_tasks (cv_world_of stored 1 tiny_chunks tiny_schedule) = []
  ∧ Forall (λ x, x = Returned)
      (cv_workers (cv_world_of stored 1 tiny_chunks tiny_schedule))
  ∧ queue_mutex (cv_world_of stored 1 tiny_chunks tiny_schedule) = false
  ∧ (cv_shared (cv_world_of stored 1 tiny_chunks tiny_schedule),
     cv_log (cv_world_of stored 1 tiny_chunks tiny_schedule))
    = calls (compress_task stored)
        (cv_completed (cv_world_of stored 1 tiny_chunks tiny_schedule))
        ([], []).
Proof.
  split; [vm_compute; reflexivity|].
  apply (shutdown_barrier_with_condition (compress_task stored) 1 tiny_chunks
           [] 19 1 (cv_world_of stored 1 tiny_chunks tiny_schedule)).
  - lia.
  - apply tiny_schedule_run.
  - vm_compute. reflexivity.
Defined.

(** ** A pool without workers *)

(** [main] gives the pool [std::thread::hardware_concurrency()] workers,
    and that function may return 0.  The run of such a pool on the one
    chunk of [tiny_file]: *)
Lemma tiny_alone :
  compress_main stored 0 tiny_file
    (run_of (world_of stored 0 tiny_chunks main_alone))
    (Some (world_of stored 0 tiny_chunks main_alone)).
Proof.
  apply (compress_chunks CHUNK_SIZE stored 0 tiny_file tiny_chunks).
  - apply tiny_read.
  - discriminate.
  - apply world_of_run. vm_compute. eauto.
  - vm_compute. reflexivity.
Qed.

Lemma tiny_never_fails (c : Chunk) :
  c ∈ tiny_chunks → ∃ d, compressData stored (data c) = Return d.
Proof.
  intros Hc. apply stored_never_fails.
  destruct (read_chunks_Some _ _ _ tiny_read) as (_ & _ & Hall & _).
  rewrite Forall_forall in Hall. by destruct (Hall c Hc) as [_ Hlen].
Qed.

(** C1.  The round trip fails when the pool has no workers.  The codec
    [stored] gives back what it is given, and the input is the three
    bytes of [tiny_file].  The compressor has a run with
    [hardware_concurrency() = 0]; every such run returns 0 and leaves an
    empty output file, and the decompressor turns that file into an empty
    file and returns 0, where the input was not empty. *)
Theorem round_trip_fails_without_workers :
  (within_capacity stored ∧ codec_roundtrip stored)
  ∧ compress_main stored 0 tiny_file
      (run_of (world_of stored 0 tiny_chunks main_alone))
      (Some (world_of stored 0 tiny_chunks main_alone))
  ∧ (∀ r ow, compress_main stored 0 tiny_file r ow →
       exit_code r = 0
       ∧ out_file r = []
       ∧ decompress_main stored (out_file r)
         = Some {| exit_code := 0; out_file := []; cerr := [] |})
  ∧ tiny_file ≠ [].
Proof.
  split; [split; [apply stored_within_capacity|apply stored_roundtrip]|].
  split; [apply tiny_alone|]. split; [|discriminate].
  intros r ow Hrun. unfold compress_main in Hrun.
  destruct Hrun as [Hread|chunks w Hread Hne Hsteps Hmain].
  - by split_and!.
  - destruct (no_workers_nothing_runs _ _ _ _ Hsteps) as (_ & Hs & Hl).
    unfold run_of. cbn [exit_code out_file]. rewrite Hs.
    by split_and!.
Qed.

(** C5.  [shutdown] is no barrier when the pool has no workers.  A pool
    of no workers is given the one task of [tiny_chunks] and then
    [shutdown] is called: [shutdown] returns, and when it has returned
    the task is still in the queue, no call has ended and the shared
    vector is empty.  No run of this pool completes a task. *)
Theorem shutdown_returns_with_tasks_queued :
  rtc (step (compress_task stored)) (initial 0 tiny_chunks [])
    (world_of stored 0 tiny_chunks main_alone)
  ∧ main (world_of stored 0 tiny_chunks main_alone) = After_shutdown
  ∧ tasks (pool (world_of stored 0 tiny_chunks main_alone)) = tiny_chunks
  ∧ completed (world_of stored 0 tiny_chunks main_alone) = []
  ∧ shared (world_of stored 0 tiny_chunks main_alone) = []
  ∧ (∀ w, rtc (step (compress_task stored)) (initial 0 tiny_chunks []) w →
          completed w = [] ∧ shared w = []).
Proof.
  split; [apply world_of_run; vm_compute; eauto|].
  split; [vm_compute; reflexivity|]. split; [vm_compute; reflexivity|].
  split; [vm_compute; reflexivity|]. split; [vm_compute; reflexivity|].
  intros w Hrun.
  by destruct (no_workers_nothing_runs _ _ _ _ Hrun) as (Hc & Hs & _).
Qed.

(** C7.  The result set is not complete when the pool has no workers.
    The input [tiny_file] has one chunk and its compression succeeds,
    yet in every run of the compressor with [hardware_concurrency() = 0]
    the vector [compressed_chunks] is empty when [shutdown] has
    returned; and there is such a run. *)
Theorem result_set_empty_without_workers :
  read_chunks CHUNK_SIZE tiny_file = Some tiny_chunks
  ∧ length tiny_chunks = 1%nat
  ∧ (∀ c, c ∈ tiny_chunks → ∃ d, compressData stored (data c) = Return d)
  ∧ compress_main stored 0 tiny_file
      (run_of (world_of stored 0 tiny_chunks main_alone))
      (Some (world_of stored 0 tiny_chunks main_alone))
  ∧ (∀ r w, compress_main stored 0 tiny_file r (Some w) →
            main w = After_shutdown ∧ shared w = []).
Proof.
  split; [apply tiny_read|]. split; [reflexivity|].
  split; [apply tiny_never_fails|]. split; [apply tiny_alone|].
  intros r w Hrun.
  destruct (compress_with_inv _ _ _ _ _ _ _ tiny_read Hrun)
    as (_ & _ & _ & Hsteps & Hmain).
  by destruct (no_workers_nothing_runs _ _ _ _ Hsteps) as (_ & Hs & _).
Qed.
